(** * swri_console: the filtered log view (LogDatabaseProxyModel)

    A shallow embedding of [src/log_database_proxy_model.cpp].  The proxy
    model keeps [msg_mapping_], a deque of positions of the log database
    that pass the active filter, and extends it forward (new messages) and
    backward (messages that were already in the database at the last
    reset, scanned in idle-time batches).

    Conventions of the embedding:
    - [std::deque<T>] is a [list T]; [d[i]] is the lookup [d !! i], and a
      lookup that yields [None] stands for the undefined behaviour of an
      out-of-range [operator[]];
    - [std::set<std::string>] is a [gset string];
    - [size_t] positions are [nat] (they are only ever compared with, and
      bounded by, container sizes); where the source converts between [int]
      and [size_t] the conversion is written out over [Z];
    - [QString] and [std::string] are [string];
    - Qt signals are appended to a trace kept in the world, and pending
      [QTimer::singleShot] callbacks are counted. *)

From stdpp Require Import base numbers option list sorting strings gmap.
From Stdlib Require Import DecimalString.

Local Open Scope string_scope.
Local Open Scope nat_scope.

(** ** Machine integers *)

Module CInt.

Definition INT_MAX : Z := 2147483647.

(** Conversion of an integer value to a 32-bit [int] (two's complement). *)
Definition to_int (z : Z) : Z := (z + 2 ^ 31) `mod` 2 ^ 32 - 2 ^ 31.

(** Conversion of an integer value to a 64-bit [size_t]. *)
Definition to_size_t (z : Z) : Z := z `mod` 2 ^ 64.

(** C division and remainder truncate towards zero. *)
Definition div (a b : Z) : Z := Z.quot a b.
Definition rem (a b : Z) : Z := Z.rem a b.

End CInt.

(** ** printf-style formatting used by [data] *)

Module Printf.

Definition pad0 (width : nat) (s : string) : string :=
  String.concat "" (replicate (width - String.length s) "0") +:+ s.

(** [%u] and [%0<width>u]. *)
Definition fmt_u (width : nat) (n : Z) : string :=
  pad0 width (NilZero.string_of_uint (N.to_uint (Z.to_N n))).

(** [%d] and [%0<width>d]: the sign counts towards the width and the
    zeros go between the sign and the digits. *)
Definition fmt_d (width : nat) (z : Z) : string :=
  if (z <? 0)%Z
  then "-" +:+ pad0 (width - 1) (NilZero.string_of_uint (N.to_uint (Z.to_N (- z))))
  else pad0 width (NilZero.string_of_uint (N.to_uint (Z.to_N z))).

(** [%s] of a [const char *]: the characters before the first NUL. *)
Fixpoint c_str (s : string) : string :=
  match s with
  | EmptyString => EmptyString
  | String c s' => if Ascii.eqb c Ascii.zero then EmptyString else String c (c_str s')
  end.

(** [snprintf(buf, size, ...)] keeps at most [size - 1] characters. *)
Definition snprintf (size : nat) (formatted : string) : string :=
  String.substring 0 (size - 1) formatted.

End Printf.

(** ** ROS time stamps and log levels *)

Module Ros.

(** [ros::Time]: unsigned 32-bit seconds and nanoseconds. *)
Record Time := { sec : Z; nsec : Z }.

(** [ros::Duration]: signed 32-bit seconds and nanoseconds. *)
Record Duration := { dsec : Z; dnsec : Z }.

Definition TIME_MIN : Time := {| sec := 0; nsec := 1 |}.

Definition Time_lt (a b : Time) : bool :=
  (sec a <? sec b)%Z || ((sec a =? sec b)%Z && (nsec a <? nsec b)%Z).

(** [rosgraph_msgs::Log] severity constants. *)
Definition DEBUG : Z := 1.
Definition INFO : Z := 2.
Definition WARN : Z := 4.
Definition ERROR : Z := 8.
Definition FATAL : Z := 16.

(** The message written to a bag. *)
Record Log := {
  header_seq : Z;
  header_stamp : Time;
  log_level : Z;
  log_name : string;
  log_msg : string;
  log_file : string;
  log_function : string;
  log_line : Z
}.

End Ros.

(** ** The library operations the model calls

    The proxy model delegates string search to [QString], pattern matching
    to [QRegExp] and time arithmetic to [ros::Time].  Their
    results are taken as an interface; every theorem below holds for any
    implementation of it. *)

Class External := {
  (** [msg.contains(s, Qt::CaseInsensitive)] *)
  QString_contains : string → string → bool;
  (** [QRegExp(pattern).isValid()] *)
  QRegExp_compiles : string → bool;
  (** [QRegExp(pattern).indexIn(msg)]: position of the first match, or -1 *)
  QRegExp_search : string → string → Z;
  (** [name.endsWith(suffix, Qt::CaseInsensitive)] *)
  QString_endsWith : string → string → bool;
  (** [a - b] on [ros::Time] *)
  Time_minus : Ros.Time → Ros.Time → Ros.Duration
}.

(** [QRegExp]: the object stores its pattern; [setPattern] replaces it. *)
Record QRegExp := { pattern : string }.

Definition setPattern (_ : QRegExp) (p : string) : QRegExp := {| pattern := p |}.
Definition isEmpty (r : QRegExp) : bool := bool_decide (pattern r = "").
Definition isValid `{External} (r : QRegExp) : bool := QRegExp_compiles (pattern r).
Definition indexIn `{External} (r : QRegExp) (msg : string) : Z :=
  QRegExp_search (pattern r) msg.

(** ** The log database *)

(** Modelled from the spec: [LogEntry] is declared in log_database.h, which
    is not part of the sources; the record has the fields the proxy model
    reads (severity level, time stamp, sequence number, source node, origin
    function, file and line, message text). *)
Record LogEntry := {
  level : Z;
  stamp : Ros.Time;
  seq : Z;
  node : string;
  function : string;
  file : string;
  line : Z;
  msg : string
}.

(** Modelled from the spec: [LogDatabase] (log_database.h/.cpp) is not part
    of the sources; it is the Record Store, an ordered append-only sequence
    of records indexable by position, with an origin time. *)
Record LogDatabase := {
  log : list LogEntry;
  minTime : Ros.Time
}.

(** Modelled from the spec: the Record Store's append (the store is
    append-only and never reorders records). *)
Definition db_append (entries : list LogEntry) (d : LogDatabase) : LogDatabase :=
  {| log := log d ++ entries; minTime := minTime d |}.

(** Modelled from the spec: [LogDatabase::clear], which is not part of the
    sources; clearing the Record Store leaves it without records. *)
Definition db_clear (d : LogDatabase) : LogDatabase :=
  {| log := []; minTime := minTime d |}.

(** Modelled from the spec: the store's "origin timestamp changed" event. *)
Definition db_setMinTime (t : Ros.Time) (d : LogDatabase) : LogDatabase :=
  {| log := log d; minTime := t |}.

(** ** Qt model indices, variants and signals *)

Record QModelIndex := {
  row : Z;                      (* [int] *)
  index_isValid : bool;         (* [isValid()] *)
  parent_isValid : bool         (* [parent().isValid()] *)
}.

(** The default-constructed index [QModelIndex()]. *)
Definition QModelIndex_null : QModelIndex :=
  {| row := -1; index_isValid := false; parent_isValid := false |}.

Inductive QVariant :=
  | QVariant_null                       (* [QVariant()] *)
  | QVariant_QString (s : string).

Definition toString (v : QVariant) : string :=
  match v with
  | QVariant_null => ""
  | QVariant_QString s => s
  end.

Definition DisplayRole : Z := 0.
Definition ToolTipRole : Z := 3.

Inductive Signal :=
  | modelAboutToBeReset                         (* [beginResetModel] *)
  | modelReset                                  (* [endResetModel] *)
  | rowsAboutToBeInserted (first last : Z)      (* [beginInsertRows] *)
  | rowsInserted (first last : Z)               (* [endInsertRows] *)
  | messagesAdded
  | dataChanged (topLeft bottomRight : QModelIndex).

(** ** The proxy model *)

(** The members that decide whether a record passes. *)
Record FilterConfig := {
  names_ : gset string;
  severity_mask_ : Z;                   (* [uint8_t] *)
  use_regular_expressions_ : bool;
  include_strings_ : list string;
  exclude_strings_ : list string;
  include_regexp_ : QRegExp;
  exclude_regexp_ : QRegExp
}.

(** The members that only affect how a row is rendered. *)
Record Display := {
  display_time_ : bool;
  display_absolute_time_ : bool
}.

(** The mapping and its two cursors. *)
Record View := {
  msg_mapping_ : list nat;
  early_mapping_ : list nat;
  earliest_index_ : nat;
  latest_index_ : nat
}.

(** The proxy model together with the database [db_] points to, the
    signals emitted so far (oldest first) and the number of queued
    [QTimer::singleShot(0, this, SLOT(processOldMessages()))] callbacks. *)
Record World := {
  db_ : LogDatabase;
  config : FilterConfig;
  display : Display;
  view : View;
  emitted : list Signal;
  idle_callbacks : nat
}.

Definition with_db (d : LogDatabase) (w : World) : World :=
  {| db_ := d; config := config w; display := display w; view := view w;
     emitted := emitted w; idle_callbacks := idle_callbacks w |}.

Definition with_config (f : FilterConfig) (w : World) : World :=
  {| db_ := db_ w; config := f; display := display w; view := view w;
     emitted := emitted w; idle_callbacks := idle_callbacks w |}.

Definition with_display (d : Display) (w : World) : World :=
  {| db_ := db_ w; config := config w; display := d; view := view w;
     emitted := emitted w; idle_callbacks := idle_callbacks w |}.

Definition with_view (v : View) (w : World) : World :=
  {| db_ := db_ w; config := config w; display := display w; view := v;
     emitted := emitted w; idle_callbacks := idle_callbacks w |}.

Definition emit (s : list Signal) (w : World) : World :=
  {| db_ := db_ w; config := config w; display := display w; view := view w;
     emitted := emitted w ++ s; idle_callbacks := idle_callbacks w |}.

Definition with_idle_callbacks (n : nat) (w : World) : World :=
  {| db_ := db_ w; config := config w; display := display w; view := view w;
     emitted := emitted w; idle_callbacks := n |}.

Section Model.
Context `{External}.

(** *** The filter predicate *)

(** The loop of [testIncludeFilter] over [include_strings_]. *)
Fixpoint include_loop (strings : list string) (m : string) : bool :=
  match strings with
  | [] => false
  | s :: rest => if QString_contains m s then true else include_loop rest m
  end.

Definition testIncludeFilter (f : FilterConfig) (item : LogEntry) : bool :=
  if use_regular_expressions_ f then
    (0 <=? indexIn (include_regexp_ f) (msg item))%Z
  else
    if bool_decide (include_strings_ f = []) then true
    else include_loop (include_strings_ f) (msg item).

(** The loop of [acceptLogEntry] over [exclude_strings_]: [true] when it
    runs to the end, [false] when it returns from inside. *)
Fixpoint exclude_loop (strings : list string) (m : string) : bool :=
  match strings with
  | [] => true
  | s :: rest => if QString_contains m s then false else exclude_loop rest m
  end.

(** The [return] statement of [acceptLogEntry] that decides a record. *)
Inductive Verdict :=
  | RejectedBySeverity
  | RejectedBySource
  | RejectedByInclude
  | RejectedByExclude
  | Accepted.

Definition acceptLogEntry_verdict (f : FilterConfig) (item : LogEntry) : Verdict :=
  if (Z.land (level item) (severity_mask_ f) =? 0)%Z then RejectedBySeverity
  else if bool_decide (node item ∉ names_ f) then RejectedBySource
  else if negb (testIncludeFilter f item) then RejectedByInclude
  else if use_regular_expressions_ f then
    if isEmpty (exclude_regexp_ f) || (indexIn (exclude_regexp_ f) (msg item) <? 0)%Z
    then Accepted else RejectedByExclude
  else
    if exclude_loop (exclude_strings_ f) (msg item) then Accepted
    else RejectedByExclude.

Definition acceptLogEntry (f : FilterConfig) (item : LogEntry) : bool :=
  match acceptLogEntry_verdict f item with
  | Accepted => true
  | _ => false
  end.

(** *** Queries *)

Definition rowCount (w : World) (parent : QModelIndex) : Z :=
  if index_isValid parent then 0%Z
  else CInt.to_int (Z.of_nat (length (msg_mapping_ (view w)))).

Definition isIncludeValid (w : World) : bool :=
  if use_regular_expressions_ (config w) && negb (isValid (include_regexp_ (config w)))
  then false else true.

Definition isExcludeValid (w : World) : bool :=
  if use_regular_expressions_ (config w) && negb (isValid (exclude_regexp_ (config w)))
  then false else true.

(** [QAbstractListModel::index(row)]: a valid index for a row the model
    has, the null index otherwise. *)
Definition index (w : World) (r : Z) : QModelIndex :=
  if (0 <=? r)%Z && (r <? rowCount w QModelIndex_null)%Z
  then {| row := r; index_isValid := true; parent_isValid := false |}
  else QModelIndex_null.

End Model.

(** ** Rendering a row: [data] *)

Section Rendering.
Context `{External}.

Definition nl : string := String (Ascii.ascii_of_nat 10) EmptyString.

Definition level_char (lv : Z) : string :=
  if (lv =? Ros.DEBUG)%Z then "D"
  else if (lv =? Ros.INFO)%Z then "I"
  else if (lv =? Ros.WARN)%Z then "W"
  else if (lv =? Ros.ERROR)%Z then "E"
  else if (lv =? Ros.FATAL)%Z then "F"
  else "?".

Definition stamp_text (w : World) (item : LogEntry) : string :=
  if display_absolute_time_ (display w) then
    Printf.snprintf 128
      (Printf.fmt_u 0 (Ros.sec (stamp item)) +:+ "." +:+
       Printf.fmt_u 9 (Ros.nsec (stamp item)))
  else
    let t := Time_minus (stamp item) (minTime (db_ w)) in
    let secs := Ros.dsec t in
    let hours := CInt.div (CInt.div secs 60) 60 in
    let minutes := CInt.rem (CInt.div secs 60) 60 in
    let seconds := CInt.rem secs 60 in
    let milliseconds := CInt.div (Ros.dnsec t) 1000000 in
    Printf.snprintf 128
      (Printf.fmt_d 0 hours +:+ ":" +:+ Printf.fmt_d 2 minutes +:+ ":" +:+
       Printf.fmt_d 2 seconds +:+ ":" +:+ Printf.fmt_d 3 milliseconds).

Definition display_text (w : World) (item : LogEntry) : string :=
  let header :=
    if display_time_ (display w) then
      Printf.snprintf 1024
        ("[" +:+ level_char (level item) +:+ " " +:+ stamp_text w item +:+ "] ")
    else
      Printf.snprintf 1024 ("[" +:+ level_char (level item) +:+ "] ") in
  header +:+ msg item.

Definition tooltip_text (item : LogEntry) : string :=
  let buffer :=
    Printf.snprintf 4096
      ("<p style='white-space:pre'>" +:+
       "Timestamp: " +:+ Printf.fmt_d 0 (CInt.to_int (Ros.sec (stamp item))) +:+ "." +:+
         Printf.fmt_d 9 (CInt.to_int (Ros.nsec (stamp item))) +:+ nl +:+
       "Seq: " +:+ Printf.fmt_d 0 (CInt.to_int (seq item)) +:+ nl +:+
       "Node: " +:+ Printf.c_str (node item) +:+ nl +:+
       "Function: " +:+ Printf.c_str (function item) +:+ nl +:+
       "File: " +:+ Printf.c_str (file item) +:+ nl +:+
       "Line: " +:+ Printf.fmt_d 0 (CInt.to_int (line item)) +:+ nl +:+
       nl) in
  buffer +:+ msg item +:+ "</p>".

(** What [data] returns once it holds the record [item]. *)
Definition render (w : World) (item : LogEntry) (role : Z) : QVariant :=
  if (role =? DisplayRole)%Z then QVariant_QString (display_text w item)
  else if (role =? ToolTipRole)%Z then QVariant_QString (tooltip_text item)
  else QVariant_null.

(** [data(index, role)].  The comparison [index.row() >= msg_mapping_.size()]
    converts the [int] row to [size_t], as does the subscript.  [None] is the
    undefined behaviour of subscripting a deque out of range. *)
Definition data (w : World) (idx : QModelIndex) (role : Z) : option QVariant :=
  if parent_isValid idx &&
     (Z.of_nat (length (msg_mapping_ (view w))) <=? CInt.to_size_t (row idx))%Z
  then Some QVariant_null
  else
    p ← msg_mapping_ (view w) !! Z.to_nat (CInt.to_size_t (row idx));
    item ← log (db_ w) !! p;
    Some (render w item role).

End Rendering.

(** ** Maintaining the view *)

Section Engine.
Context `{External}.

Definition scheduleIdleProcessing (w : World) : World :=
  if decide (0 < earliest_index_ (view w))
  then with_idle_callbacks (S (idle_callbacks w)) w
  else w.

Definition reset (w : World) : World :=
  let size := length (log (db_ w)) in
  scheduleIdleProcessing
    (emit [modelReset]
       (with_view {| msg_mapping_ := []; early_mapping_ := [];
                     earliest_index_ := size; latest_index_ := size |}
          (emit [modelAboutToBeReset] w))).

Definition clear (w : World) : World :=
  reset (with_db (db_clear (db_ w)) w).

(** *** Forward extension *)

(** The [for] loop of [processNewMessages]; [fuel] bounds the number of
    iterations and the lookup is the loop test [latest_index_ < size]. *)
Fixpoint new_loop (f : FilterConfig) (lg : list LogEntry) (fuel : nat)
    (latest : nat) (new_items : list nat) : nat * list nat :=
  match fuel with
  | 0 => (latest, new_items)
  | S fuel' =>
      match lg !! latest with
      | None => (latest, new_items)
      | Some item =>
          if acceptLogEntry f item
          then new_loop f lg fuel' (S latest) (new_items ++ [latest])
          else new_loop f lg fuel' (S latest) new_items
      end
  end.

Definition processNewMessages (w : World) : World :=
  let v := view w in
  let '(latest, new_items) :=
    new_loop (config w) (log (db_ w)) (length (log (db_ w)) - latest_index_ v)
      (latest_index_ v) [] in
  let w1 := with_view {| msg_mapping_ := msg_mapping_ v;
                         early_mapping_ := early_mapping_ v;
                         earliest_index_ := earliest_index_ v;
                         latest_index_ := latest |} w in
  if bool_decide (new_items = []) then w1
  else
    let first := CInt.to_int (Z.of_nat (length (msg_mapping_ v))) in
    let last := CInt.to_int (Z.of_nat (length (msg_mapping_ v) + length new_items - 1)) in
    emit [rowsInserted first last; messagesAdded]
      (with_view {| msg_mapping_ := msg_mapping_ v ++ new_items;
                    early_mapping_ := early_mapping_ v;
                    earliest_index_ := earliest_index_ v;
                    latest_index_ := latest |}
         (emit [rowsAboutToBeInserted first last] w1)).

(** *** Backward catch-up *)

(** The [for] loop of [processOldMessages]: [fuel] is [100 - i], so running
    out of fuel is the loop test [i < 100] failing.  The third component
    of the result is the final value of [i]. *)
Fixpoint old_loop (f : FilterConfig) (lg : list LogEntry) (fuel : nat) (i : nat)
    (earliest : nat) (early : list nat) : option (nat * list nat * nat) :=
  match fuel with
  | 0 => Some (earliest, early, i)
  | S fuel' =>
      match earliest with
      | 0 => Some (earliest, early, i)
      | S e =>
          item ← lg !! e;
          if acceptLogEntry f item
          then old_loop f lg fuel' (S i) e (e :: early)
          else old_loop f lg fuel' (S i) e early
      end
  end.

(** The test after the loop of [processOldMessages]: whether the pending
    batch is merged into the view now. *)
Definition flushes (earliest : nat) (early : list nat) : bool :=
  bool_decide (earliest = 0) && negb (bool_decide (length early = 0))
  || bool_decide (200 < length early).

Definition processOldMessages (w : World) : option World :=
  let v := view w in
  '(earliest, early, _) ←
    old_loop (config w) (log (db_ w)) 100 0 (earliest_index_ v) (early_mapping_ v);
  let w1 := with_view {| msg_mapping_ := msg_mapping_ v;
                         early_mapping_ := early;
                         earliest_index_ := earliest;
                         latest_index_ := latest_index_ v |} w in
  let w2 :=
    if flushes earliest early then
      let last := CInt.to_int (Z.of_nat (length early - 1)) in
      emit [rowsInserted 0 last; messagesAdded]
        (with_view {| msg_mapping_ := early ++ msg_mapping_ v;
                      early_mapping_ := [];
                      earliest_index_ := earliest;
                      latest_index_ := latest_index_ v |}
           (emit [rowsAboutToBeInserted 0 last] w1))
    else w1 in
  Some (scheduleIdleProcessing w2).

(** The event loop running one queued idle callback, if there is one. *)
Definition idle_timeout (w : World) : option World :=
  match idle_callbacks w with
  | 0 => Some w
  | S n => processOldMessages (with_idle_callbacks n w)
  end.

End Engine.

(** ** Configuration slots *)

Section Slots.
Context `{External}.

Definition setNodeFilter (names : gset string) (w : World) : World :=
  let f := config w in
  reset (with_config
    {| names_ := names; severity_mask_ := severity_mask_ f;
       use_regular_expressions_ := use_regular_expressions_ f;
       include_strings_ := include_strings_ f; exclude_strings_ := exclude_strings_ f;
       include_regexp_ := include_regexp_ f; exclude_regexp_ := exclude_regexp_ f |} w).

Definition setSeverityFilter (severity_mask : Z) (w : World) : World :=
  let f := config w in
  reset (with_config
    {| names_ := names_ f; severity_mask_ := severity_mask;
       use_regular_expressions_ := use_regular_expressions_ f;
       include_strings_ := include_strings_ f; exclude_strings_ := exclude_strings_ f;
       include_regexp_ := include_regexp_ f; exclude_regexp_ := exclude_regexp_ f |} w).

(** [dataChanged(index(0), index(msg_mapping_.size()))] *)
Definition emit_dataChanged (w : World) : World :=
  emit [dataChanged (index w 0)
          (index w (CInt.to_int (Z.of_nat (length (msg_mapping_ (view w))))))] w.

Definition setAbsoluteTime (absolute : bool) (w : World) : World :=
  if bool_decide (absolute = display_absolute_time_ (display w)) then w
  else
    let w1 := with_display {| display_time_ := display_time_ (display w);
                              display_absolute_time_ := absolute |} w in
    if display_time_ (display w1) && negb (bool_decide (length (msg_mapping_ (view w1)) = 0))
    then emit_dataChanged w1 else w1.

Definition setDisplayTime (display_flag : bool) (w : World) : World :=
  if bool_decide (display_flag = display_time_ (display w)) then w
  else
    let w1 := with_display {| display_time_ := display_flag;
                              display_absolute_time_ :=
                                display_absolute_time_ (display w) |} w in
    if negb (bool_decide (length (msg_mapping_ (view w1)) = 0))
    then emit_dataChanged w1 else w1.

Definition setUseRegularExpressions (useRegexps : bool) (w : World) : World :=
  let f := config w in
  if bool_decide (useRegexps = use_regular_expressions_ f) then w
  else
    reset (with_config
      {| names_ := names_ f; severity_mask_ := severity_mask_ f;
         use_regular_expressions_ := useRegexps;
         include_strings_ := include_strings_ f; exclude_strings_ := exclude_strings_ f;
         include_regexp_ := include_regexp_ f; exclude_regexp_ := exclude_regexp_ f |} w).

Definition setIncludeFilters (strings : list string) (w : World) : World :=
  let f := config w in
  reset (with_config
    {| names_ := names_ f; severity_mask_ := severity_mask_ f;
       use_regular_expressions_ := use_regular_expressions_ f;
       include_strings_ := strings; exclude_strings_ := exclude_strings_ f;
       include_regexp_ := include_regexp_ f; exclude_regexp_ := exclude_regexp_ f |} w).

Definition setExcludeFilters (strings : list string) (w : World) : World :=
  let f := config w in
  reset (with_config
    {| names_ := names_ f; severity_mask_ := severity_mask_ f;
       use_regular_expressions_ := use_regular_expressions_ f;
       include_strings_ := include_strings_ f; exclude_strings_ := strings;
       include_regexp_ := include_regexp_ f; exclude_regexp_ := exclude_regexp_ f |} w).

Definition setIncludeRegexpPattern (p : string) (w : World) : World :=
  let f := config w in
  reset (with_config
    {| names_ := names_ f; severity_mask_ := severity_mask_ f;
       use_regular_expressions_ := use_regular_expressions_ f;
       include_strings_ := include_strings_ f; exclude_strings_ := exclude_strings_ f;
       include_regexp_ := setPattern (include_regexp_ f) p;
       exclude_regexp_ := exclude_regexp_ f |} w).

Definition setExcludeRegexpPattern (p : string) (w : World) : World :=
  let f := config w in
  reset (with_config
    {| names_ := names_ f; severity_mask_ := severity_mask_ f;
       use_regular_expressions_ := use_regular_expressions_ f;
       include_strings_ := include_strings_ f; exclude_strings_ := exclude_strings_ f;
       include_regexp_ := include_regexp_ f;
       exclude_regexp_ := setPattern (exclude_regexp_ f) p |} w).

Definition minTimeUpdated (w : World) : World :=
  if display_time_ (display w) && negb (display_absolute_time_ (display w))
     && negb (bool_decide (length (msg_mapping_ (view w)) = 0))
  then emit_dataChanged w else w.

End Slots.

(** ** Export *)

Section Exporter.
Context `{External}.

(** One [bag.write("/rosout", stamp, log)]. *)
Record BagRecord := {
  bag_topic : string;
  bag_time : Ros.Time;
  bag_message : Ros.Log
}.

(** What an export leaves behind: the records written to the bag together
    with the [qWarning] lines, or the contents of the text file. *)
Inductive Exported :=
  | BagFile (records : list BagRecord) (warnings : list string)
  | TextFile (contents : string).

Definition bag_warning (item : LogEntry) : string :=
  "Msg with seq " +:+ Printf.fmt_d 0 (CInt.to_int (seq item)) +:+ " had time (" +:+
  Printf.fmt_d 0 (CInt.to_int (Ros.sec (stamp item))) +:+
  "); it's less than ros::TIME_MIN, which is invalid.  Writing 'now' instead.".

(** The body of the loop of [saveBagFile] for one record; [now] is what
    [ros::Time::now()] returns in that iteration. *)
Definition bag_record (now : Ros.Time) (item : LogEntry) : BagRecord * list string :=
  let early := Ros.Time_lt (stamp item) Ros.TIME_MIN in
  let t := if early then now else stamp item in
  ({| bag_topic := "/rosout";
      bag_time := t;
      bag_message :=
        {| Ros.header_seq := seq item; Ros.header_stamp := t;
           Ros.log_level := level item; Ros.log_name := node item;
           Ros.log_msg := msg item; Ros.log_file := file item;
           Ros.log_function := function item; Ros.log_line := line item |} |},
   if early then [bag_warning item] else []).

(** The loop of [saveBagFile], from [db_->log().begin()] to [end()];
    [k] counts the iterations done and [clock k] is the wall-clock time
    during iteration [k]. *)
Fixpoint bag_loop (clock : nat → Ros.Time) (k : nat) (rest : list LogEntry)
    (records : list BagRecord) (warnings : list string)
    : list BagRecord * list string :=
  match rest with
  | [] => (records, warnings)
  | item :: rest' =>
      let '(r, ws) := bag_record (clock k) item in
      bag_loop clock (S k) rest' (records ++ [r]) (warnings ++ ws)
  end.

Definition saveBagFile (clock : nat → Ros.Time) (w : World) : Exported :=
  let '(records, warnings) := bag_loop clock 0 (log (db_ w)) [] [] in
  BagFile records warnings.

(** The loop of [saveTextFile]; [fuel] bounds the iterations, the test
    [i < msg_mapping_.size()] compares after converting [i] to [size_t],
    and [i++] past [INT_MAX] is undefined. *)
Fixpoint text_loop (w : World) (fuel : nat) (i : Z) (out : string) : option string :=
  match fuel with
  | 0 => Some out
  | S fuel' =>
      if (CInt.to_size_t i <? Z.of_nat (length (msg_mapping_ (view w))))%Z then
        v ← data w (index w i) DisplayRole;
        if (i <? CInt.INT_MAX)%Z
        then text_loop w fuel' (i + 1)%Z (out +:+ toString v +:+ nl)
        else None
      else Some out
  end.

Definition saveTextFile (w : World) : option Exported :=
  TextFile <$> text_loop w (S (length (msg_mapping_ (view w)))) 0 "".

(** The lines a text export of the rows at the positions [ps] consists of. *)
Fixpoint text_rows (w : World) (ps : list nat) : string :=
  match ps with
  | [] => ""
  | p :: ps' =>
      (from_option (display_text w) "" (log (db_ w) !! p) +:+ nl) +:+ text_rows w ps'
  end.

Definition saveToFile (clock : nat → Ros.Time) (filename : string) (w : World)
    : option Exported :=
  if QString_endsWith filename ".bag" then Some (saveBagFile clock w)
  else saveTextFile w.

End Exporter.

(** ** Runs of the system

    What can happen to a proxy model after it has been created: the database
    grows or moves its origin time, a slot of the proxy model is invoked, or
    the event loop runs a queued idle callback. *)

Inductive Op :=
  | Append (entries : list LogEntry)
  | MoveMinTime (t : Ros.Time)
  | ProcessNewMessages
  | ProcessOldMessages
  | IdleTimeout
  | MinTimeUpdated
  | SetAbsoluteTime (absolute : bool)
  | SetDisplayTime (display_flag : bool)
  | SetNodeFilter (names : gset string)
  | SetSeverityFilter (severity_mask : Z)
  | SetUseRegularExpressions (useRegexps : bool)
  | SetIncludeFilters (strings : list string)
  | SetExcludeFilters (strings : list string)
  | SetIncludeRegexpPattern (p : string)
  | SetExcludeRegexpPattern (p : string)
  | Reset
  | Clear.

Section Runs.
Context `{External}.

Definition exec (op : Op) (w : World) : option World :=
  match op with
  | Append entries => Some (with_db (db_append entries (db_ w)) w)
  | MoveMinTime t => Some (with_db (db_setMinTime t (db_ w)) w)
  | ProcessNewMessages => Some (processNewMessages w)
  | ProcessOldMessages => processOldMessages w
  | IdleTimeout => idle_timeout w
  | MinTimeUpdated => Some (minTimeUpdated w)
  | SetAbsoluteTime b => Some (setAbsoluteTime b w)
  | SetDisplayTime b => Some (setDisplayTime b w)
  | SetNodeFilter names => Some (setNodeFilter names w)
  | SetSeverityFilter m => Some (setSeverityFilter m w)
  | SetUseRegularExpressions b => Some (setUseRegularExpressions b w)
  | SetIncludeFilters l => Some (setIncludeFilters l w)
  | SetExcludeFilters l => Some (setExcludeFilters l w)
  | SetIncludeRegexpPattern p => Some (setIncludeRegexpPattern p w)
  | SetExcludeRegexpPattern p => Some (setExcludeRegexpPattern p w)
  | Reset => Some (reset w)
  | Clear => Some (clear w)
  end.

Fixpoint run (ops : list Op) (w : World) : option World :=
  match ops with
  | [] => Some w
  | op :: rest => w' ← exec op w; run rest w'
  end.

(** The operations that neither reset the view nor touch the filter. *)
Definition keeps_view (op : Op) : bool :=
  match op with
  | Append _ | MoveMinTime _ | ProcessNewMessages | ProcessOldMessages
  | IdleTimeout | MinTimeUpdated | SetAbsoluteTime _ | SetDisplayTime _ => true
  | _ => false
  end.

(** The operations of a run in which only forward extension works. *)
Definition forward_only (op : Op) : bool :=
  match op with
  | Append _ | ProcessNewMessages => true
  | _ => false
  end.

(** The operations by which the log of the database gets longer. *)
Definition grows_store (op : Op) : bool :=
  match op with
  | Append (_ :: _) => true
  | _ => false
  end.

(** The event loop left alone: idle callbacks run until none is queued.
    The second component counts the invocations of [processOldMessages]. *)
Fixpoint idle_run (fuel : nat) (w : World) : option (World * nat) :=
  match fuel with
  | 0 => Some (w, 0)
  | S fuel' =>
      match idle_callbacks w with
      | 0 => Some (w, 0)
      | S _ =>
          w' ← idle_timeout w;
          '(w'', n) ← idle_run fuel' w';
          Some (w'', S n)
      end
  end.

(** [k] invocations of [processOldMessages] in a row. *)
Fixpoint catch_up (k : nat) (w : World) : option World :=
  match k with
  | 0 => Some w
  | S k' => w' ← processOldMessages w; catch_up k' w'
  end.

(** The number of batches of 100 that cover [n] positions: [n / 100]
    rounded up. *)
Definition batches (n : nat) : nat := (n + 99) `div` 100.

(** *** The view the specification describes *)

(** Position [p] of the log holds a record the filter accepts. *)
Definition passes (f : FilterConfig) (lg : list LogEntry) (p : nat) : bool :=
  match lg !! p with
  | Some item => acceptLogEntry f item
  | None => false
  end.

(** The accepted positions in [[a, b)], in ascending order. *)
Definition accepted_range (f : FilterConfig) (lg : list LogEntry) (a b : nat) : list nat :=
  List.filter (passes f lg) (List.seq a (b - a)).

(** The predicate in the words of the specification. *)
Definition severity_selected (f : FilterConfig) (item : LogEntry) : Prop :=
  ∃ k : Z, Z.testbit (level item) k = true ∧ Z.testbit (severity_mask_ f) k = true.

Definition source_selected (f : FilterConfig) (item : LogEntry) : Prop :=
  node item ∈ names_ f.

Definition include_rule (f : FilterConfig) (item : LogEntry) : Prop :=
  if use_regular_expressions_ f
  then (0 ≤ indexIn (include_regexp_ f) (msg item))%Z
  else include_strings_ f = [] ∨
       ∃ s, s ∈ include_strings_ f ∧ QString_contains (msg item) s = true.

Definition exclude_rule (f : FilterConfig) (item : LogEntry) : Prop :=
  if use_regular_expressions_ f
  then pattern (exclude_regexp_ f) = "" ∨
       (indexIn (exclude_regexp_ f) (msg item) < 0)%Z
  else ∀ s, s ∈ exclude_strings_ f → QString_contains (msg item) s = false.

Definition accept_spec (f : FilterConfig) (item : LogEntry) : Prop :=
  severity_selected f item ∧ source_selected f item ∧
  include_rule f item ∧ exclude_rule f item.

(** The first check, in the order severity, source, include, exclude, that
    a record fails. *)
Definition first_failure (f : FilterConfig) (item : LogEntry) (v : Verdict) : Prop :=
  match v with
  | RejectedBySeverity => ¬ severity_selected f item
  | RejectedBySource => severity_selected f item ∧ ¬ source_selected f item
  | RejectedByInclude =>
      severity_selected f item ∧ source_selected f item ∧ ¬ include_rule f item
  | RejectedByExclude =>
      severity_selected f item ∧ source_selected f item ∧ include_rule f item ∧
      ¬ exclude_rule f item
  | Accepted => accept_spec f item
  end.

(** What the view holds between two resets: the accepted positions from
    [flushed] up to the forward cursor are in [msg_mapping_], those from the
    backward cursor up to [flushed] wait in [early_mapping_]; [size0] is the
    size of the database at the last reset. *)
Definition view_inv (size0 : nat) (w : World) : Prop :=
  ∃ flushed,
    earliest_index_ (view w) ≤ flushed ∧ flushed ≤ size0 ∧
    size0 ≤ latest_index_ (view w) ∧
    latest_index_ (view w) ≤ length (log (db_ w)) ∧
    early_mapping_ (view w) =
      accepted_range (config w) (log (db_ w)) (earliest_index_ (view w)) flushed ∧
    msg_mapping_ (view w) =
      accepted_range (config w) (log (db_ w)) flushed (latest_index_ (view w)) ∧
    (earliest_index_ (view w) = 0 → early_mapping_ (view w) = []).

(** What holds of the engine at every point after a reset: the view
    invariant for the size at some last reset, a pending batch of at most
    200 positions, and an idle callback queued while the backward cursor
    is not at zero. *)
Definition engine_inv (w : World) : Prop :=
  (∃ size0, view_inv size0 w) ∧
  length (early_mapping_ (view w)) ≤ 200 ∧
  (0 < earliest_index_ (view w) → 0 < idle_callbacks w).

(** The forward cursor is at the end of the log. *)
Definition in_sync (w : World) : Prop :=
  latest_index_ (view w) = length (log (db_ w)).

(** The signals of one insertion of the rows [first] to [last]. *)
Definition insert_signals (first last : Z) : list Signal :=
  [rowsAboutToBeInserted first last; rowsInserted first last; messagesAdded].

(** The connections made by the constructor: the database's
    [messagesAdded] runs [processNewMessages] and its [minTimeUpdated]
    runs the slot of the same name, both right after the database
    changed. *)
Definition connected (op : Op) : list Op :=
  match op with
  | Append entries => [Append entries; ProcessNewMessages]
  | MoveMinTime t => [MoveMinTime t; MinTimeUpdated]
  | _ => [op]
  end.

Definition deliver (ops : list Op) : list Op := concat (connected <$> ops).

End Runs.

(** ** A concrete instance for running examples

    Text is ASCII; a pattern made of letters, digits and spaces matches
    literally, and any other pattern is treated as malformed (as the
    unclosed group ["("] is for [QRegExp]); the difference of two time
    stamps is normalised to nanoseconds in [[0, 10^9)]. *)

Module Example.

Definition lower_char (c : Ascii.ascii) : Ascii.ascii :=
  let n := Ascii.nat_of_ascii c in
  if (65 <=? n) && (n <=? 90) then Ascii.ascii_of_nat (n + 32) else c.

Fixpoint lower (s : string) : string :=
  match s with
  | EmptyString => EmptyString
  | String c s' => String (lower_char c) (lower s')
  end.

Definition contains_ci (m s : string) : bool :=
  match String.index 0 (lower s) (lower m) with
  | Some _ => true
  | None => false
  end.

Definition ends_with_ci (name suffix : string) : bool :=
  let n := String.length name in
  let k := String.length suffix in
  (k <=? n) && bool_decide (lower (String.substring (n - k) k name) = lower suffix).

Definition literal_char (c : Ascii.ascii) : bool :=
  let n := Ascii.nat_of_ascii c in
  (n =? 32) || ((48 <=? n) && (n <=? 57)) || ((65 <=? n) && (n <=? 90))
  || ((97 <=? n) && (n <=? 122)).

Fixpoint literal (p : string) : bool :=
  match p with
  | EmptyString => true
  | String c p' => literal_char c && literal p'
  end.

Definition search (p m : string) : Z :=
  if literal p then
    match String.index 0 p m with
    | Some i => Z.of_nat i
    | None => (-1)%Z
    end
  else (-1)%Z.

Definition time_minus (a b : Ros.Time) : Ros.Duration :=
  let ns := ((Ros.sec a * 1000000000 + Ros.nsec a)
             - (Ros.sec b * 1000000000 + Ros.nsec b))%Z in
  {| Ros.dsec := (ns `div` 1000000000)%Z; Ros.dnsec := (ns `mod` 1000000000)%Z |}.

#[export] Instance external : External := {|
  QString_contains := contains_ci;
  QRegExp_compiles := literal;
  QRegExp_search := search;
  QString_endsWith := ends_with_ci;
  Time_minus := time_minus
|}.

Definition entry (lv : Z) (name text : string) : LogEntry :=
  {| level := lv; stamp := {| Ros.sec := 10; Ros.nsec := 500000000 |}; seq := 7;
     node := name; function := "main"; file := "a.cpp"; line := 42; msg := text |}.

Definition filter0 : FilterConfig :=
  {| names_ := {[ "A" ]}; severity_mask_ := 12; use_regular_expressions_ := false;
     include_strings_ := []; exclude_strings_ := [];
     include_regexp_ := {| pattern := "" |}; exclude_regexp_ := {| pattern := "" |} |}.

Definition world0 (lg : list LogEntry) : World :=
  {| db_ := {| log := lg; minTime := {| Ros.sec := 10; Ros.nsec := 0 |} |};
     config := filter0;
     display := {| display_time_ := true; display_absolute_time_ := false |};
     view := {| msg_mapping_ := []; early_mapping_ := [];
                earliest_index_ := 0; latest_index_ := 0 |};
     emitted := []; idle_callbacks := 0 |}.

(** Three records from source "A": INFO, WARN, ERROR. *)
Definition log3 : list LogEntry :=
  [entry Ros.INFO "A" "starting"; entry Ros.WARN "A" "Connection Timeout occurred";
   entry Ros.ERROR "A" "all good"].

Definition backlog : World := world0 log3.

(** 250 accepted records already in the database. *)
Definition backlog250 : World :=
  world0 (replicate 250 (entry Ros.WARN "A" "ready")).

(** One idle callback, then a record arrives and is processed. *)
Definition ops_catch_up : list Op :=
  [IdleTimeout; Append [entry Ros.WARN "A" "new"]; ProcessNewMessages].

(** The world after that run: four records, of which the view holds the
    last three. *)
Definition caught_up : World :=
  default backlog (run ops_catch_up (reset backlog)).

(** The filter of the examples with other text lists and pattern mode on. *)
Definition filter_patterns (includes excludes : list string) : FilterConfig :=
  {| names_ := {[ "A" ]}; severity_mask_ := 12; use_regular_expressions_ := true;
     include_strings_ := includes; exclude_strings_ := excludes;
     include_regexp_ := {| pattern := "Timeout" |};
     exclude_regexp_ := {| pattern := "" |} |}.

(** The filter of the examples with more names and more exclude strings. *)
Definition filter_text (names : gset string) (excludes : list string) : FilterConfig :=
  {| names_ := names; severity_mask_ := 12; use_regular_expressions_ := false;
     include_strings_ := []; exclude_strings_ := excludes;
     include_regexp_ := {| pattern := "" |}; exclude_regexp_ := {| pattern := "" |} |}.

(** The same world with the time column switched off. *)
Definition untimed : World := setDisplayTime false caught_up.

(** The index of row [r] of a list model: valid, and without a parent. *)
Definition top_index (r : Z) : QModelIndex :=
  {| row := r; index_isValid := true; parent_isValid := false |}.

(** The same as events of the application: an idle callback and a record
    arriving in the database. *)
Definition events_catch_up : list Op :=
  [IdleTimeout; Append [entry Ros.WARN "A" "new"]].

(** One idle callback, then the severity filter is narrowed to INFO. *)
Definition ops_refilter : list Op := [IdleTimeout; SetSeverityFilter Ros.INFO].

(** Two batches of records arrive. *)
Definition ops_forward : list Op :=
  [Append [entry Ros.WARN "A" "one"; entry Ros.DEBUG "A" "two"]; ProcessNewMessages;
   Append [entry Ros.ERROR "B" "three"; entry Ros.ERROR "A" "four"]].

(** What may follow without the log growing: an idle callback, a change of
    the time format, and the database announcing no record at all. *)
Definition ops_quiet : list Op := [IdleTimeout; SetAbsoluteTime true; Append []].

(** A world with a callback left over from an earlier reset. *)
Definition backlog250_stale : World := reset backlog250.

End Example.

(** * Facts about the embedding *)

Local Close Scope string_scope.

Arguments accepted_range : simpl never.
Arguments passes : simpl never.
Arguments processOldMessages : simpl never.
Arguments processNewMessages : simpl never.

(** ** Conversions between [int] and [size_t] *)

Lemma to_int_small z : (- 2 ^ 31 ≤ z ≤ CInt.INT_MAX)%Z → CInt.to_int z = z.
Proof.
  unfold CInt.to_int, CInt.INT_MAX. intros Hz.
  rewrite Z.mod_small; lia.
Qed.

Lemma to_int_le z : (0 ≤ z)%Z → (CInt.to_int z ≤ z)%Z.
Proof.
  unfold CInt.to_int. intros Hz.
  pose proof (Z.mod_le (z + 2 ^ 31) (2 ^ 32)). lia.
Qed.

Lemma to_int_upper z : (CInt.to_int z ≤ CInt.INT_MAX)%Z.
Proof.
  unfold CInt.to_int, CInt.INT_MAX.
  pose proof (Z.mod_pos_bound (z + 2 ^ 31) (2 ^ 32)). lia.
Qed.

Lemma to_size_t_small z : (0 ≤ z < 2 ^ 64)%Z → CInt.to_size_t z = z.
Proof. unfold CInt.to_size_t. intros Hz. by rewrite Z.mod_small. Qed.

(** ** Accepted positions of a range *)

Section AcceptedRange.
Context `{External}.
Implicit Types (f : FilterConfig) (lg : list LogEntry) (a b c p : nat).

Lemma accepted_range_empty f lg a b : b ≤ a → accepted_range f lg a b = [].
Proof.
  intros Hle. unfold accepted_range.
  replace (b - a) with 0 by lia. done.
Qed.

Lemma accepted_range_split f lg a b c :
  a ≤ b → b ≤ c →
  accepted_range f lg a c = accepted_range f lg a b ++ accepted_range f lg b c.
Proof.
  intros Hab Hbc. unfold accepted_range.
  replace (c - a) with ((b - a) + (c - b)) by lia.
  rewrite List.seq_app, List.filter_app.
  by replace (a + (b - a)) with b by lia.
Qed.

Lemma accepted_range_single f lg p :
  accepted_range f lg p (S p) = if passes f lg p then [p] else [].
Proof.
  unfold accepted_range. replace (S p - p) with 1 by lia. simpl.
  by destruct (passes f lg p).
Qed.

Lemma accepted_range_snoc f lg a b :
  a ≤ b →
  accepted_range f lg a (S b) =
    accepted_range f lg a b ++ (if passes f lg b then [b] else []).
Proof.
  intros Hab.
  rewrite (accepted_range_split f lg a b (S b)) by lia.
  by rewrite accepted_range_single.
Qed.

Lemma accepted_range_cons f lg a b :
  a < b →
  accepted_range f lg a b =
    (if passes f lg a then [a] else []) ++ accepted_range f lg (S a) b.
Proof.
  intros Hab.
  rewrite (accepted_range_split f lg a (S a) b) by lia.
  by rewrite accepted_range_single.
Qed.

Lemma elem_of_accepted_range f lg a b p :
  p ∈ accepted_range f lg a b ↔ a ≤ p < b ∧ passes f lg p = true.
Proof.
  unfold accepted_range.
  rewrite list_elem_of_In, List.filter_In, List.in_seq. intuition lia.
Qed.

Lemma passes_app f lg more p :
  p < length lg → passes f (lg ++ more) p = passes f lg p.
Proof. intros Hp. unfold passes. by rewrite lookup_app_l. Qed.

Lemma accepted_range_app f lg more a b :
  b ≤ length lg →
  accepted_range f (lg ++ more) a b = accepted_range f lg a b.
Proof.
  intros Hb. unfold accepted_range.
  apply List.filter_ext_in. intros p Hp%List.in_seq.
  apply passes_app. lia.
Qed.

Lemma accepted_range_sorted f lg a b :
  StronglySorted lt (accepted_range f lg a b).
Proof.
  unfold accepted_range. generalize (b - a) as n. intros n.
  revert a. induction n as [|n IH]; intros a; simpl.
  - constructor.
  - destruct (passes f lg a).
    + constructor; [apply IH|].
      apply List.Forall_forall. intros p [Hp _]%List.filter_In.
      apply List.in_seq in Hp. lia.
    + apply IH.
Qed.

Lemma accepted_range_NoDup f lg a b : NoDup (accepted_range f lg a b).
Proof.
  unfold accepted_range. apply NoDup_ListNoDup, List.NoDup_filter, List.seq_NoDup.
Qed.

Lemma accepted_range_length_le f lg a b :
  length (accepted_range f lg a b) ≤ b - a.
Proof.
  unfold accepted_range.
  etrans; [apply List.filter_length_le|]. by rewrite List.length_seq.
Qed.

End AcceptedRange.

(** ** The two scanning loops *)

Section Loops.
Context `{External}.
Implicit Types (f : FilterConfig) (lg : list LogEntry).

Lemma new_loop_done f lg fuel latest items :
  length lg ≤ latest → new_loop f lg fuel latest items = (latest, items).
Proof.
  intros Hle. destruct fuel as [|fuel]; [done|]. cbn [new_loop].
  by rewrite lookup_ge_None_2.
Qed.

Lemma new_loop_spec f lg fuel latest items :
  latest ≤ length lg → length lg - latest ≤ fuel →
  new_loop f lg fuel latest items =
    (length lg, items ++ accepted_range f lg latest (length lg)).
Proof.
  revert latest items. induction fuel as [|fuel IH]; intros latest items Hle Hfuel.
  - assert (latest = length lg) as -> by lia. cbn [new_loop].
    rewrite accepted_range_empty by lia. by rewrite app_nil_r.
  - cbn [new_loop]. destruct (lg !! latest) as [item|] eqn:Hlk.
    + pose proof (lookup_lt_Some _ _ _ Hlk) as Hlt.
      rewrite (accepted_range_cons f lg latest (length lg)) by lia.
      unfold passes at 1. rewrite Hlk.
      destruct (acceptLogEntry f item).
      * rewrite IH by lia. by rewrite <- app_assoc.
      * rewrite IH by lia. done.
    + apply lookup_ge_None_1 in Hlk.
      assert (latest = length lg) as -> by lia.
      rewrite accepted_range_empty by lia. by rewrite app_nil_r.
Qed.

Lemma old_loop_spec f lg fuel i earliest early :
  earliest ≤ length lg →
  old_loop f lg fuel i earliest early =
    Some (earliest - fuel `min` earliest,
          accepted_range f lg (earliest - fuel `min` earliest) earliest ++ early,
          i + fuel `min` earliest).
Proof.
  revert i earliest early.
  induction fuel as [|fuel IH]; intros i earliest early Hle.
  - cbn [old_loop]. replace (0 `min` earliest) with 0 by lia.
    rewrite accepted_range_empty by lia.
    repeat f_equal; lia.
  - destruct earliest as [|e].
    + cbn [old_loop]. rewrite accepted_range_empty by lia.
      repeat f_equal; lia.
    + cbn [old_loop].
      destruct (lg !! e) as [item|] eqn:Hlk.
      2:{ apply lookup_ge_None_1 in Hlk. lia. }
      cbn [mbind option_bind].
      replace (S fuel `min` S e) with (S (fuel `min` e)) by lia.
      replace (S e - S (fuel `min` e)) with (e - fuel `min` e) by lia.
      rewrite (accepted_range_snoc f lg (e - fuel `min` e) e) by lia.
      unfold passes. rewrite Hlk.
      destruct (acceptLogEntry f item); rewrite IH by lia;
        rewrite <- ?app_assoc; cbn [app]; do 2 f_equal; lia.
Qed.

End Loops.

(** ** The operations on a world whose cursors are within the log *)

Section Steps.
Context `{External}.
Implicit Types (w : World).

Lemma scheduleIdleProcessing_frame w :
  db_ (scheduleIdleProcessing w) = db_ w ∧
  config (scheduleIdleProcessing w) = config w ∧
  display (scheduleIdleProcessing w) = display w ∧
  view (scheduleIdleProcessing w) = view w ∧
  emitted (scheduleIdleProcessing w) = emitted w.
Proof. unfold scheduleIdleProcessing. by case_decide. Qed.

Lemma scheduleIdleProcessing_idle w :
  idle_callbacks (scheduleIdleProcessing w) =
    if decide (0 < earliest_index_ (view w))
    then S (idle_callbacks w) else idle_callbacks w.
Proof. unfold scheduleIdleProcessing. by case_decide. Qed.

Lemma reset_view w :
  view (reset w) =
    {| msg_mapping_ := []; early_mapping_ := [];
       earliest_index_ := length (log (db_ w));
       latest_index_ := length (log (db_ w)) |}.
Proof. unfold reset. by rewrite (proj1 (proj2 (proj2 (proj2 (scheduleIdleProcessing_frame _))))). Qed.

Lemma reset_frame w :
  db_ (reset w) = db_ w ∧ config (reset w) = config w ∧ display (reset w) = display w.
Proof.
  unfold reset.
  destruct (scheduleIdleProcessing_frame
    (emit [modelReset]
       (with_view {| msg_mapping_ := []; early_mapping_ := [];
                     earliest_index_ := length (log (db_ w));
                     latest_index_ := length (log (db_ w)) |}
          (emit [modelAboutToBeReset] w)))) as (-> & -> & -> & _).
  done.
Qed.

Lemma reset_idle w :
  idle_callbacks (reset w) =
    if decide (0 < length (log (db_ w)))
    then S (idle_callbacks w) else idle_callbacks w.
Proof. unfold reset. by rewrite scheduleIdleProcessing_idle. Qed.

Lemma processNewMessages_frame w :
  db_ (processNewMessages w) = db_ w ∧
  config (processNewMessages w) = config w ∧
  display (processNewMessages w) = display w ∧
  idle_callbacks (processNewMessages w) = idle_callbacks w ∧
  early_mapping_ (view (processNewMessages w)) = early_mapping_ (view w) ∧
  earliest_index_ (view (processNewMessages w)) = earliest_index_ (view w).
Proof.
  unfold processNewMessages.
  destruct (new_loop _ _ _ _ _) as [latest new_items].
  by case_bool_decide.
Qed.

Lemma processNewMessages_view w :
  latest_index_ (view w) ≤ length (log (db_ w)) →
  msg_mapping_ (view (processNewMessages w)) =
    msg_mapping_ (view w) ++
    accepted_range (config w) (log (db_ w)) (latest_index_ (view w))
      (length (log (db_ w))) ∧
  latest_index_ (view (processNewMessages w)) = length (log (db_ w)).
Proof.
  intros Hle. unfold processNewMessages.
  rewrite new_loop_spec by lia. cbn [app].
  case_bool_decide as Hnil; cbn.
  - rewrite Hnil. by rewrite app_nil_r.
  - done.
Qed.

(** A world in which nothing new is in the log is left as it is. *)
Lemma processNewMessages_nothing_new w :
  length (log (db_ w)) ≤ latest_index_ (view w) → processNewMessages w = w.
Proof.
  intros Hle. unfold processNewMessages.
  rewrite new_loop_done by done.
  rewrite bool_decide_eq_true_2 by done.
  by destruct w as [? ? ? [] ? ?].
Qed.

Lemma processNewMessages_cursor w :
  length (log (db_ w)) ≤ latest_index_ (view (processNewMessages w)).
Proof.
  destruct (decide (latest_index_ (view w) ≤ length (log (db_ w)))) as [Hle|Hgt].
  - by rewrite (proj2 (processNewMessages_view w Hle)).
  - rewrite processNewMessages_nothing_new; lia.
Qed.

Lemma processOldMessages_spec w :
  earliest_index_ (view w) ≤ length (log (db_ w)) →
  let earliest := earliest_index_ (view w) - 100 `min` earliest_index_ (view w) in
  let early :=
    accepted_range (config w) (log (db_ w)) earliest (earliest_index_ (view w))
    ++ early_mapping_ (view w) in
  ∃ w', processOldMessages w = Some w' ∧
    db_ w' = db_ w ∧ config w' = config w ∧ display w' = display w ∧
    earliest_index_ (view w') = earliest ∧
    latest_index_ (view w') = latest_index_ (view w) ∧
    msg_mapping_ (view w') =
      (if flushes earliest early then early ++ msg_mapping_ (view w)
       else msg_mapping_ (view w)) ∧
    early_mapping_ (view w') = (if flushes earliest early then [] else early) ∧
    idle_callbacks w' =
      (if decide (0 < earliest) then S (idle_callbacks w) else idle_callbacks w).
Proof.
  intros Hle earliest early. unfold processOldMessages.
  rewrite old_loop_spec by done. cbn [mbind option_bind].
  fold earliest. fold early.
  eexists. split; [reflexivity|].
  match goal with |- context [scheduleIdleProcessing ?x] =>
    destruct (scheduleIdleProcessing_frame x) as (-> & -> & -> & -> & _);
    rewrite (scheduleIdleProcessing_idle x)
  end.
  destruct (flushes earliest early); cbn; done.
Qed.

End Steps.

(** ** The invariant of the view between two resets *)

Section Invariant.
Context `{External}.
Implicit Types (w : World).

Lemma view_inv_same_state n w w' :
  log (db_ w') = log (db_ w) → config w' = config w → view w' = view w →
  view_inv n w → view_inv n w'.
Proof.
  intros Hlog Hcfg Hview (fl & ?). exists fl.
  by rewrite Hlog, Hcfg, Hview.
Qed.

Lemma view_inv_reset w : view_inv (length (log (db_ w))) (reset w).
Proof.
  exists (length (log (db_ w))).
  destruct (reset_frame w) as (-> & -> & _). rewrite reset_view. cbn.
  rewrite accepted_range_empty by lia. repeat split; done || lia.
Qed.

Lemma view_inv_append n entries w :
  view_inv n w → view_inv n (with_db (db_append entries (db_ w)) w).
Proof.
  intros (fl & ? & ? & ? & ? & Hearly & Hmsg & Hzero). exists fl. cbn.
  rewrite !accepted_range_app by lia. rewrite length_app.
  repeat split; done || lia.
Qed.

Lemma view_inv_processNewMessages n w :
  view_inv n w → view_inv n (processNewMessages w).
Proof.
  intros (fl & ? & ? & ? & Hlen & Hearly & Hmsg & Hzero). exists fl.
  destruct (processNewMessages_frame w) as (-> & -> & _ & _ & -> & ->).
  destruct (processNewMessages_view w Hlen) as [-> ->].
  repeat split; try done; try lia.
  rewrite Hmsg. symmetry. apply accepted_range_split; lia.
Qed.

Lemma view_inv_processOldMessages n w :
  view_inv n w →
  ∃ w', processOldMessages w = Some w' ∧ view_inv n w' ∧
        db_ w' = db_ w ∧ config w' = config w.
Proof.
  intros (fl & Hfl & ? & ? & Hlen & Hearly & Hmsg & Hzero).
  destruct (processOldMessages_spec w) as
    (w' & Hrun & Hdb & Hcfg & _ & He & Hl & Hm & Hp & _); [lia|].
  exists w'. repeat split; try done.
  set (e' := earliest_index_ (view w) - 100 `min` earliest_index_ (view w)) in *.
  rewrite Hearly, <- accepted_range_split in Hm, Hp by lia.
  destruct (flushes e' _) eqn:Hflush.
  - exists e'. rewrite Hdb, Hcfg, He, Hl, Hm, Hp, Hmsg.
    rewrite accepted_range_empty by lia.
    repeat split; try done; try lia.
    symmetry. apply accepted_range_split; lia.
  - exists fl. rewrite Hdb, Hcfg, He, Hl, Hm, Hp.
    repeat split; try done; try lia.
    intros Hz. unfold flushes in Hflush.
    apply orb_false_iff in Hflush as [Hflush _].
    rewrite bool_decide_eq_true_2 in Hflush by done.
    apply negb_false_iff, bool_decide_eq_true_1 in Hflush.
    by apply nil_length_inv.
Qed.

Lemma view_inv_idle_timeout n w :
  view_inv n w →
  ∃ w', idle_timeout w = Some w' ∧ view_inv n w' ∧
        db_ w' = db_ w ∧ config w' = config w.
Proof.
  intros Hinv. unfold idle_timeout.
  destruct (idle_callbacks w) as [|k] eqn:Hk.
  - by exists w.
  - apply (view_inv_processOldMessages n (with_idle_callbacks k w)).
    by apply (view_inv_same_state n w).
Qed.

Lemma emit_dataChanged_state w :
  db_ (emit_dataChanged w) = db_ w ∧ config (emit_dataChanged w) = config w ∧
  view (emit_dataChanged w) = view w.
Proof. done. Qed.

Lemma minTimeUpdated_state w :
  db_ (minTimeUpdated w) = db_ w ∧ config (minTimeUpdated w) = config w ∧
  view (minTimeUpdated w) = view w.
Proof. unfold minTimeUpdated. by destruct (_ && _). Qed.

Lemma setAbsoluteTime_state b w :
  db_ (setAbsoluteTime b w) = db_ w ∧ config (setAbsoluteTime b w) = config w ∧
  view (setAbsoluteTime b w) = view w.
Proof.
  unfold setAbsoluteTime. case_bool_decide; [done|]. by destruct (_ && _).
Qed.

Lemma setDisplayTime_state b w :
  db_ (setDisplayTime b w) = db_ w ∧ config (setDisplayTime b w) = config w ∧
  view (setDisplayTime b w) = view w.
Proof.
  unfold setDisplayTime. case_bool_decide; [done|]. by destruct (negb _).
Qed.

(** An operation that keeps the view keeps the invariant, the filter and
    the records already in the log, and it never subscripts out of range. *)
Lemma exec_keeps_view n op w :
  keeps_view op = true → view_inv n w →
  ∃ w', exec op w = Some w' ∧ view_inv n w' ∧ config w' = config w ∧
        ∃ more, log (db_ w') = log (db_ w) ++ more.
Proof.
  intros Hop Hinv. destruct op; try discriminate Hop; cbn [exec].
  - eexists. split; [done|]. split; [by apply view_inv_append|].
    split; [done|]. by exists entries.
  - eexists. split; [done|]. split; [by apply (view_inv_same_state n w)|].
    split; [done|]. exists []. by rewrite app_nil_r.
  - eexists. split; [done|]. split; [by apply view_inv_processNewMessages|].
    destruct (processNewMessages_frame w) as (-> & -> & _).
    split; [done|]. exists []. by rewrite app_nil_r.
  - destruct (view_inv_processOldMessages n w Hinv) as (w' & ? & ? & Hd & ?).
    exists w'. repeat split; try done. exists []. by rewrite Hd, app_nil_r.
  - destruct (view_inv_idle_timeout n w Hinv) as (w' & ? & ? & Hd & ?).
    exists w'. repeat split; try done. exists []. by rewrite Hd, app_nil_r.
  - destruct (minTimeUpdated_state w) as (Hd & Hc & Hv).
    eexists. split; [done|]. split; [by apply (view_inv_same_state n w); rewrite ?Hd|].
    rewrite Hd. split; [done|]. exists []. by rewrite app_nil_r.
  - destruct (setAbsoluteTime_state absolute w) as (Hd & Hc & Hv).
    eexists. split; [done|]. split; [by apply (view_inv_same_state n w); rewrite ?Hd|].
    rewrite Hd. split; [done|]. exists []. by rewrite app_nil_r.
  - destruct (setDisplayTime_state display_flag w) as (Hd & Hc & Hv).
    eexists. split; [done|]. split; [by apply (view_inv_same_state n w); rewrite ?Hd|].
    rewrite Hd. split; [done|]. exists []. by rewrite app_nil_r.
Qed.

Lemma run_keeps_view n ops w :
  Forall (λ op, keeps_view op = true) ops → view_inv n w →
  ∃ w', run ops w = Some w' ∧ view_inv n w' ∧ config w' = config w ∧
        ∃ more, log (db_ w') = log (db_ w) ++ more.
Proof.
  intros Hops. revert w. induction Hops as [|op ops Hop _ IH]; intros w Hinv.
  - exists w. repeat split; try done. exists []. by rewrite app_nil_r.
  - destruct (exec_keeps_view n op w Hop Hinv) as (w1 & Hexec & Hinv1 & Hc1 & more1 & Hl1).
    destruct (IH w1 Hinv1) as (w2 & Hrun & Hinv2 & Hc2 & more2 & Hl2).
    exists w2. cbn [run]. rewrite Hexec. cbn. repeat split; try done.
    + congruence.
    + exists (more1 ++ more2). by rewrite Hl2, Hl1, <- app_assoc.
Qed.

(** Every operation leads from a world with the invariant (for some size
    at the last reset) to another one. *)
Lemma exec_inv op w :
  (∃ n, view_inv n w) → ∃ w', exec op w = Some w' ∧ ∃ n, view_inv n w'.
Proof.
  intros [n Hinv].
  destruct (keeps_view op) eqn:Hop.
  - destruct (exec_keeps_view n op w Hop Hinv) as (w' & ? & ? & _). eauto.
  - destruct op; try discriminate Hop; cbn [exec];
      (eexists; split; [done|]);
      try (eexists; apply view_inv_reset).
    unfold setUseRegularExpressions. case_bool_decide.
    + by exists n.
    + eexists; apply view_inv_reset.
Qed.

Lemma run_inv ops w :
  (∃ n, view_inv n w) → ∃ w', run ops w = Some w' ∧ ∃ n, view_inv n w'.
Proof.
  revert w. induction ops as [|op ops IH]; intros w Hinv.
  - by exists w.
  - destruct (exec_inv op w Hinv) as (w1 & Hexec & Hinv1).
    destruct (IH w1 Hinv1) as (w2 & Hrun & Hinv2).
    exists w2. cbn [run]. rewrite Hexec. done.
Qed.

End Invariant.

(** ** Consequences of the invariant *)

Section Consequences.
Context `{External}.
Implicit Types (w : World).

Lemma passes_true_lookup f lg p :
  passes f lg p = true → ∃ item, lg !! p = Some item ∧ acceptLogEntry f item = true.
Proof.
  unfold passes. destruct (lg !! p) as [item|]; [|done]. by exists item.
Qed.

Lemma view_inv_sorted n w : view_inv n w → StronglySorted lt (msg_mapping_ (view w)).
Proof. intros (fl & _ & _ & _ & _ & _ & -> & _). apply accepted_range_sorted. Qed.

Lemma view_inv_accepted n w :
  view_inv n w →
  Forall (λ p, ∃ item, log (db_ w) !! p = Some item ∧
                       acceptLogEntry (config w) item = true)
    (msg_mapping_ (view w)).
Proof.
  intros (fl & _ & _ & _ & _ & _ & -> & _).
  apply Forall_forall. intros p [_ Hp]%elem_of_accepted_range.
  by apply passes_true_lookup.
Qed.

(** Once the backward cursor is at zero the view holds every accepted
    position below the forward cursor. *)
Lemma view_inv_complete n w :
  view_inv n w → earliest_index_ (view w) = 0 →
  early_mapping_ (view w) = [] ∧
  msg_mapping_ (view w) =
    accepted_range (config w) (log (db_ w)) 0 n ++
    accepted_range (config w) (log (db_ w)) n (latest_index_ (view w)).
Proof.
  intros (fl & ? & ? & ? & ? & Hearly & Hmsg & Hzero) He.
  split; [by apply Hzero|].
  assert (accepted_range (config w) (log (db_ w)) 0 fl = []) as Hnone.
  { rewrite <- (Hzero He), Hearly. by rewrite He. }
  rewrite Hmsg, (accepted_range_split _ _ 0 fl n), Hnone by lia.
  cbn [app]. apply accepted_range_split; lia.
Qed.

(** The accepted positions from [a] on are as many as the accepted records
    of the log without its first [a] records. *)
Lemma accepted_range_count f lg a :
  length (accepted_range f lg a (length lg)) =
    length (List.filter (acceptLogEntry f) (drop a lg)).
Proof.
  remember (length lg - a) as k eqn:Hk. revert a Hk.
  induction k as [|k IH]; intros a Hk.
  - rewrite accepted_range_empty by lia. by rewrite drop_ge by lia.
  - rewrite accepted_range_cons by lia.
    destruct (lookup_lt_is_Some_2 lg a) as [item Hitem]; [lia|].
    rewrite (drop_S _ _ _ Hitem). cbn [List.filter].
    unfold passes at 1. rewrite Hitem.
    rewrite length_app, IH by lia.
    by destruct (acceptLogEntry f item).
Qed.

Lemma exec_forward_only op w w' :
  forward_only op = true → exec op w = Some w' →
  earliest_index_ (view w') = earliest_index_ (view w).
Proof.
  intros Hop Hexec. destruct op; try discriminate Hop; cbn [exec] in Hexec;
    injection Hexec as <-; [done|].
  by destruct (processNewMessages_frame w) as (_ & _ & _ & _ & _ & ->).
Qed.

Lemma run_forward_only ops w w' :
  Forall (λ op, forward_only op = true) ops → run ops w = Some w' →
  earliest_index_ (view w') = earliest_index_ (view w).
Proof.
  intros Hops. revert w. induction Hops as [|op ops Hop _ IH]; intros w Hrun.
  - by injection Hrun as <-.
  - cbn [run] in Hrun. destruct (exec op w) as [w1|] eqn:Hexec; [|done].
    cbn in Hrun. rewrite (IH w1 Hrun). by apply (exec_forward_only op).
Qed.

Lemma forward_only_keeps_view ops :
  Forall (λ op, forward_only op = true) ops →
  Forall (λ op, keeps_view op = true) ops.
Proof. intros Hops. eapply Forall_impl; [exact Hops|]. by intros []. Qed.

Lemma view_inv_latest_le n w :
  view_inv n w → latest_index_ (view w) ≤ length (log (db_ w)).
Proof. by intros (fl & _ & _ & _ & ? & _). Qed.

Lemma run_app ops1 ops2 w :
  run (ops1 ++ ops2) w = w' ← run ops1 w; run ops2 w'.
Proof.
  revert w. induction ops1 as [|op ops1 IH]; intros w; [done|].
  cbn [run app]. destruct (exec op w) as [w1|]; [|done]. cbn. apply IH.
Qed.

End Consequences.

(** * The claims *)

(** C6.  Whatever happens to a proxy model after a reset (the database
    growing, forward extension, backward catch-up with its flushes, idle
    callbacks, configuration changes, resets and clears), no operation
    subscripts out of range, and in the world reached [msg_mapping_] is a
    strictly increasing sequence of positions of the log, each holding a
    record that the filter in force accepts. *)
Theorem C6_view_strictly_increasing `{External} (w0 : World) (ops : list Op) :
  ∃ w, run ops (reset w0) = Some w ∧
       StronglySorted lt (msg_mapping_ (view w)) ∧
       Forall (λ p, ∃ item, log (db_ w) !! p = Some item ∧
                            acceptLogEntry (config w) item = true)
         (msg_mapping_ (view w)).
Proof.
  destruct (run_inv ops (reset w0)) as (w & Hrun & n & Hinv).
  { eexists. apply view_inv_reset. }
  exists w. split; [done|]. split.
  - by apply (view_inv_sorted n).
  - by apply (view_inv_accepted n).
Qed.

(** C1.  Take any run after a reset in which the view is not reset again
    (the database may grow, forward extension, catch-up steps and idle
    callbacks may interleave in any order).  The run never subscripts out
    of range, and once the backward cursor is at zero [msg_mapping_] is the
    ascending list of the accepted positions below the size the database
    had at the reset, followed by the accepted positions that forward
    extension appended; a position below that size is in the view exactly
    when its record is accepted; nothing is pending, and the list has no
    duplicates and is strictly increasing. *)
Theorem C1_catch_up_complete `{External} (w0 : World) (ops : list Op) :
  Forall (λ op, keeps_view op = true) ops →
  ∃ w, run ops (reset w0) = Some w ∧
    (earliest_index_ (view w) = 0 →
       msg_mapping_ (view w) =
         accepted_range (config w0) (log (db_ w0)) 0 (length (log (db_ w0))) ++
         accepted_range (config w0) (log (db_ w)) (length (log (db_ w0)))
           (latest_index_ (view w)) ∧
       (∀ p, p < length (log (db_ w0)) →
          p ∈ msg_mapping_ (view w) ↔
          ∃ item, log (db_ w0) !! p = Some item ∧
                  acceptLogEntry (config w0) item = true) ∧
       early_mapping_ (view w) = [] ∧
       NoDup (msg_mapping_ (view w)) ∧
       StronglySorted lt (msg_mapping_ (view w))).
Proof.
  intros Hops.
  destruct (run_keeps_view (length (log (db_ w0))) ops (reset w0) Hops)
    as (w & Hrun & Hinv & Hcfg & more & Hlog).
  { apply view_inv_reset. }
  destruct (reset_frame w0) as (Hdb0 & Hcfg0 & _).
  rewrite Hcfg0 in Hcfg. rewrite Hdb0 in Hlog.
  exists w. split; [done|]. intros He.
  destruct (view_inv_complete _ w Hinv He) as [Hearly Hmsg].
  rewrite Hcfg in Hmsg. rewrite Hlog in Hmsg at 1.
  rewrite accepted_range_app in Hmsg by lia.
  split; [done|]. split; [|split; [done|split]].
  - intros p Hp. rewrite Hmsg, elem_of_app, !elem_of_accepted_range.
    split.
    + intros [[_ Hpass]|[? _]]; [|lia]. by apply passes_true_lookup.
    + intros (item & Hitem & Hacc). left. split; [lia|].
      unfold passes. by rewrite Hitem.
  - destruct Hinv as (fl & _ & _ & _ & _ & _ & -> & _). apply accepted_range_NoDup.
  - by apply (view_inv_sorted (length (log (db_ w0)))).
Qed.

Lemma C1_catch_up_complete_witness :
  ∃ w, run (H := Example.external) Example.ops_catch_up (reset Example.backlog) = Some w ∧
       msg_mapping_ (view w) = [1; 2; 3].
Proof.
  destruct (C1_catch_up_complete (H := Example.external) Example.backlog
              Example.ops_catch_up) as (w & Hrun & Hres).
  { repeat constructor. }
  exists w. split; [exact Hrun|].
  vm_compute in Hrun. injection Hrun as <-.
  destruct Hres as (-> & _); reflexivity.
Defined.

(** C2, as the code has it.  Take any run after a reset in which the view
    is not reset again and the filter stays as it is, and let forward
    extension run at its end.  The accepted positions of the backlog between
    the backward cursor and the size at the reset are those the catch-up
    has examined; the first of them are the pending batch, and the rest
    have been merged into the view.  [msg_mapping_] is these merged
    positions followed by the accepted positions among the records appended
    since the reset, so [rowCount] is the number of merged backlog rows plus
    the number of accepted appended records, whenever that fits an [int].
    Nothing is merged in a run of appends and forward extensions alone, and
    all accepted backlog positions are once the backward cursor is at zero. *)
Theorem C2_row_count_forward_extension `{External} (w0 : World) (ops : list Op) :
  Forall (λ op, keeps_view op = true) ops →
  ∃ w, run (ops ++ [ProcessNewMessages]) (reset w0) = Some w ∧
    let n0 := length (log (db_ w0)) in
    let count :=
      length (List.filter (acceptLogEntry (config w0)) (drop n0 (log (db_ w)))) in
    let examined :=
      accepted_range (config w0) (log (db_ w0)) (earliest_index_ (view w)) n0 in
    let merged := drop (length (early_mapping_ (view w))) examined in
    early_mapping_ (view w) = take (length (early_mapping_ (view w))) examined ∧
    msg_mapping_ (view w) =
      merged ++ accepted_range (config w0) (log (db_ w)) n0 (length (log (db_ w))) ∧
    length (msg_mapping_ (view w)) = length merged + count ∧
    ((Z.of_nat (length merged + count) ≤ CInt.INT_MAX)%Z →
       rowCount w QModelIndex_null = Z.of_nat (length merged + count)) ∧
    (Forall (λ op, forward_only op = true) ops →
       merged = [] ∧ length (msg_mapping_ (view w)) = count) ∧
    (earliest_index_ (view w) = 0 →
       merged = accepted_range (config w0) (log (db_ w0)) 0 n0).
Proof.
  intros Hops. set (n := length (log (db_ w0))).
  destruct (run_keeps_view n ops (reset w0) Hops)
    as (w1 & Hrun & Hinv & Hcfg & more & Hlog).
  { apply view_inv_reset. }
  destruct (reset_frame w0) as (Hdb0 & Hcfg0 & _).
  rewrite Hcfg0 in Hcfg. rewrite Hdb0 in Hlog.
  exists (processNewMessages w1). split.
  { rewrite run_app, Hrun. done. }
  pose proof (view_inv_processNewMessages n w1 Hinv) as Hinv'.
  pose proof (view_inv_latest_le n w1 Hinv) as Hlen.
  destruct (processNewMessages_view w1 Hlen) as [_ Hl].
  destruct (processNewMessages_frame w1) as (Hdb & Hc & _ & _ & _ & He).
  destruct Hinv' as (fl & Hfl1 & Hfl2 & _ & _ & Hearly & Hmsg & Hzero).
  rewrite Hc, Hcfg, Hdb in Hearly, Hmsg. rewrite Hl in Hmsg.
  cbn zeta. rewrite Hdb. fold n.
  set (w := processNewMessages w1) in *.
  set (f := config w0) in *. set (lg := log (db_ w1)) in *.
  assert (accepted_range f (log (db_ w0)) (earliest_index_ (view w)) n =
          early_mapping_ (view w) ++ accepted_range f lg fl n) as Hexamined.
  { rewrite Hearly, <- accepted_range_split by lia.
    rewrite Hlog. by rewrite accepted_range_app by (unfold n; lia). }
  assert (n ≤ length lg) as Hn.
  { rewrite Hlog, length_app. unfold n. lia. }
  rewrite Hexamined, take_app_length, drop_app_length.
  assert (length (accepted_range f lg n (length lg)) =
          length (List.filter (acceptLogEntry f) (drop n lg))) as Hcount
    by apply accepted_range_count.
  assert (msg_mapping_ (view w) =
          accepted_range f lg fl n ++ accepted_range f lg n (length lg)) as Hview.
  { rewrite Hmsg. apply accepted_range_split; lia. }
  assert (length (msg_mapping_ (view w)) =
          length (accepted_range f lg fl n) +
          length (List.filter (acceptLogEntry f) (drop n lg))) as Hrows.
  { by rewrite Hview, length_app, Hcount. }
  split; [done|]. split; [done|]. split; [done|]. split; [|split].
  - intros Hfits. unfold rowCount. cbn [index_isValid QModelIndex_null].
    rewrite Hrows. apply to_int_small. unfold CInt.INT_MAX in *. lia.
  - intros Hfwd.
    pose proof (run_forward_only ops _ _ Hfwd Hrun) as He1.
    rewrite reset_view in He1. cbn in He1. fold n in He1.
    assert (accepted_range f lg fl n = []) as Hnone.
    { apply accepted_range_empty. rewrite He, He1 in Hfl1. lia. }
    split; [done|]. by rewrite Hrows, Hnone.
  - intros Hz.
    assert (accepted_range f lg 0 fl = []) as Hnone.
    { rewrite <- (Hzero Hz), Hearly. by rewrite Hz. }
    rewrite (accepted_range_split f (log (db_ w0)) 0 fl n) by lia.
    rewrite <- (accepted_range_app f (log (db_ w0)) more 0 fl) by (unfold n in *; lia).
    rewrite <- (accepted_range_app f (log (db_ w0)) more fl n) by (unfold n in *; lia).
    rewrite <- Hlog. by rewrite Hnone.
Qed.

Lemma C2_row_count_forward_extension_witness :
  ∃ w, run (H := Example.external) (Example.events_catch_up ++ [ProcessNewMessages])
         (reset Example.backlog) = Some w ∧
       rowCount w QModelIndex_null = 3%Z.
Proof.
  destruct (C2_row_count_forward_extension (H := Example.external) Example.backlog
              Example.events_catch_up) as (w & Hrun & Hres).
  { repeat constructor. }
  exists w. split; [exact Hrun|].
  vm_compute in Hrun. injection Hrun as <-.
  destruct Hres as (_ & _ & _ & Hrow & _). rewrite Hrow.
  - reflexivity.
  - vm_compute. intros Hgt. discriminate Hgt.
Defined.

(** The claim C2 fails once a catch-up step has merged backlog rows into
    the view: after a reset over three records, of which two are accepted,
    an idle callback merges these two; one accepted record is then appended
    and forward extension runs.  [rowCount] is 3, and the accepted records
    among those appended since the reset are 1. *)
Lemma C2_counterexample :
  ∃ w, run (H := Example.external) Example.ops_catch_up (reset Example.backlog) = Some w ∧
       rowCount w QModelIndex_null = 3%Z ∧
       length (List.filter (acceptLogEntry (H := Example.external) (config Example.backlog))
                 (drop (length (log (db_ Example.backlog))) (log (db_ w)))) = 1 ∧
       rowCount w QModelIndex_null ≠
         Z.of_nat (length (List.filter (acceptLogEntry (H := Example.external) (config Example.backlog))
                             (drop (length (log (db_ Example.backlog))) (log (db_ w))))).
Proof. eexists. split; [by vm_compute|]. by vm_compute. Qed.

(** ** The filter predicate against its description *)

Section Predicate.
Context `{External}.
Implicit Types (f : FilterConfig) (item : LogEntry).

Lemma Z_nonzero_bit (z : Z) : z ≠ 0%Z → ∃ k, Z.testbit z k = true.
Proof.
  intros Hz. destruct (Z.lt_trichotomy z 0) as [Hneg|[->|Hpos]]; [|done|].
  - apply Z.bits_iff_neg_ex in Hneg as [k Hk].
    exists (Z.succ (Z.max k 0)). apply Hk. lia.
  - exists (Z.log2 z). by apply Z.bit_log2.
Qed.

Lemma severity_selected_iff f item :
  Z.land (level item) (severity_mask_ f) ≠ 0%Z ↔ severity_selected f item.
Proof.
  unfold severity_selected. split.
  - intros [k Hk]%Z_nonzero_bit. exists k.
    by rewrite Z.land_spec, andb_true_iff in Hk.
  - intros (k & Ha & Hb) Hzero.
    assert (Z.testbit (Z.land (level item) (severity_mask_ f)) k = true) as Hk.
    { by rewrite Z.land_spec, Ha, Hb. }
    rewrite Hzero, Z.bits_0 in Hk. done.
Qed.

Lemma include_loop_true strings m :
  include_loop strings m = true ↔
  ∃ s, s ∈ strings ∧ QString_contains m s = true.
Proof.
  induction strings as [|s rest IH]; cbn [include_loop].
  - split; [done|]. by intros (s & ?%elem_of_nil & _).
  - destruct (QString_contains m s) eqn:Hs.
    + split; [|done]. intros _. exists s. split; [left|done].
    + rewrite IH. split.
      * intros (s' & ? & ?). exists s'. split; [by right|done].
      * intros (s' & [->|?]%elem_of_cons & Hs'); [congruence|]. by exists s'.
Qed.

Lemma exclude_loop_true strings m :
  exclude_loop strings m = true ↔
  ∀ s, s ∈ strings → QString_contains m s = false.
Proof.
  induction strings as [|s rest IH]; cbn [exclude_loop].
  - split; [|done]. by intros _ s ?%elem_of_nil.
  - destruct (QString_contains m s) eqn:Hs.
    + split; [done|]. intros Hall. rewrite Hall in Hs; [done|left].
    + rewrite IH. split.
      * intros Hall s' [->|?]%elem_of_cons; [done|by apply Hall].
      * intros Hall s' ?. apply Hall. by right.
Qed.

Lemma testIncludeFilter_true f item :
  testIncludeFilter f item = true ↔ include_rule f item.
Proof.
  unfold testIncludeFilter, include_rule.
  destruct (use_regular_expressions_ f).
  - apply Z.leb_le.
  - case_bool_decide as Hnil.
    + split; [by left|done].
    + rewrite include_loop_true. split; [by right|]. by intros [?|?].
Qed.

Lemma exclude_rule_regexp f item :
  use_regular_expressions_ f = true →
  isEmpty (exclude_regexp_ f) || (indexIn (exclude_regexp_ f) (msg item) <? 0)%Z = true
  ↔ exclude_rule f item.
Proof.
  intros Hre. unfold exclude_rule, isEmpty. rewrite Hre.
  rewrite orb_true_iff, bool_decide_eq_true, Z.ltb_lt. done.
Qed.

Lemma exclude_rule_text f item :
  use_regular_expressions_ f = false →
  exclude_loop (exclude_strings_ f) (msg item) = true ↔ exclude_rule f item.
Proof.
  intros Hre. unfold exclude_rule. rewrite Hre. apply exclude_loop_true.
Qed.

Lemma acceptLogEntry_verdict_first_failure f item :
  first_failure f item (acceptLogEntry_verdict f item).
Proof.
  unfold acceptLogEntry_verdict.
  destruct (Z.eqb_spec (Z.land (level item) (severity_mask_ f)) 0) as [Hsev|Hsev].
  { cbn. rewrite <- severity_selected_iff. by intros []. }
  apply severity_selected_iff in Hsev.
  case_bool_decide as Hsrc; [done|].
  assert (source_selected f item) as Hsrc'.
  { unfold source_selected. by destruct (decide (node item ∈ names_ f)). }
  destruct (testIncludeFilter f item) eqn:Hinc; cbn [negb].
  2:{ cbn. repeat split; try done. rewrite <- testIncludeFilter_true. congruence. }
  apply testIncludeFilter_true in Hinc.
  destruct (use_regular_expressions_ f) eqn:Hre.
  - destruct (_ || _) eqn:Hex; cbn.
    + apply (exclude_rule_regexp f item Hre) in Hex. done.
    + repeat split; try done.
      rewrite <- (exclude_rule_regexp f item Hre). congruence.
  - destruct (exclude_loop _ _) eqn:Hex; cbn.
    + apply (exclude_rule_text f item Hre) in Hex. done.
    + repeat split; try done.
      rewrite <- (exclude_rule_text f item Hre). congruence.
Qed.

End Predicate.

(** C3.  [acceptLogEntry] accepts a record exactly when a severity bit of
    the record is set in the severity mask, its source name is in the set
    of accepted names (so the empty set accepts nothing), the include rule
    passes (pattern mode: the include pattern matches the message; text
    mode: the include list is empty or the message contains one of its
    strings) and the exclude rule passes (pattern mode: the exclude pattern
    is empty or does not match; text mode: the message contains none of the
    exclude strings); and the [return] that rejects a record is that of the
    first check it fails in the order severity, source name, include,
    exclude. *)
Theorem C3_acceptLogEntry_spec `{External} (f : FilterConfig) (item : LogEntry) :
  (acceptLogEntry f item = true ↔ accept_spec f item) ∧
  first_failure f item (acceptLogEntry_verdict f item) ∧
  (names_ f = ∅ → acceptLogEntry f item = false).
Proof.
  pose proof (acceptLogEntry_verdict_first_failure f item) as Hv.
  assert (acceptLogEntry f item = true ↔ accept_spec f item) as Hiff.
  { unfold acceptLogEntry.
    destruct (acceptLogEntry_verdict f item); cbn in Hv; split; try done;
      intros (? & ? & ? & ?); exfalso; tauto. }
  split; [done|]. split; [done|].
  intros Hempty. apply not_true_is_false. rewrite Hiff.
  intros (_ & Hsrc & _). unfold source_selected in Hsrc.
  rewrite Hempty in Hsrc. set_solver.
Qed.

(** ** Termination of the catch-up *)

Section CatchUp.
Context `{External}.
Implicit Types (w : World).

Lemma batches_bounds e :
  100 * batches e < e + 100 ∧ e ≤ 100 * batches e.
Proof.
  unfold batches.
  pose proof (Nat.div_mod (e + 99) 100) as Hdm.
  pose proof (Nat.mod_upper_bound (e + 99) 100) as Hub.
  generalize dependent ((e + 99) `div` 100).
  generalize dependent ((e + 99) `mod` 100).
  intros r q Hdm Hub. lia.
Qed.

Lemma batches_le e k : batches e ≤ k ↔ e ≤ 100 * k.
Proof. pose proof (batches_bounds e). lia. Qed.

Lemma batches_step e : 0 < e → batches e = S (batches (e - 100 `min` e)).
Proof.
  intros He.
  pose proof (batches_bounds e). pose proof (batches_bounds (e - 100 `min` e)).
  lia.
Qed.

Lemma batches_pos e : 0 < batches e ↔ 0 < e.
Proof. pose proof (batches_bounds e). lia. Qed.

(** [k] invocations in a row: the cursor moves down by 100 each time, and
    an invocation queues a callback only while the cursor it leaves is
    above zero, that is, all but the last of the [batches] invocations
    that are needed. *)
Lemma catch_up_spec k w :
  earliest_index_ (view w) ≤ length (log (db_ w)) →
  ∃ wk, catch_up k w = Some wk ∧
        earliest_index_ (view wk) = earliest_index_ (view w) - 100 * k ∧
        db_ wk = db_ w ∧
        idle_callbacks wk =
          idle_callbacks w + k `min` (batches (earliest_index_ (view w)) - 1).
Proof.
  revert w. induction k as [|k IH]; intros w Hle.
  - exists w. cbn [catch_up]. repeat split; try done; lia.
  - destruct (processOldMessages_spec w Hle)
      as (w1 & Hrun & Hdb & _ & _ & He & _ & _ & _ & Hidle).
    destruct (IH w1) as (wk & Hk & Hek & Hdbk & Hidlek).
    { rewrite He, Hdb. lia. }
    exists wk. cbn [catch_up]. rewrite Hrun. cbn [mbind option_bind].
    split; [done|]. split; [rewrite Hek, He; lia|]. split; [congruence|].
    rewrite Hidlek, Hidle, He.
    set (e := earliest_index_ (view w)) in *.
    pose proof (batches_pos (e - 100 `min` e)) as Hpos1.
    pose proof (batches_bounds e) as Hb.
    case_decide as Hpos.
    + rewrite (batches_step e) by lia. lia.
    + assert (batches (e - 100 `min` e) = 0) as -> by lia. lia.
Qed.

Lemma idle_timeout_spec w n :
  idle_callbacks w = S n →
  earliest_index_ (view w) ≤ length (log (db_ w)) →
  ∃ w', idle_timeout w = Some w' ∧ db_ w' = db_ w ∧
        earliest_index_ (view w') =
          earliest_index_ (view w) - 100 `min` earliest_index_ (view w) ∧
        idle_callbacks w' =
          (if decide (0 < earliest_index_ (view w) - 100 `min` earliest_index_ (view w))
           then S n else n).
Proof.
  intros Hidle Hle. unfold idle_timeout. rewrite Hidle.
  destruct (processOldMessages_spec (with_idle_callbacks n w) Hle)
    as (w' & Hrun & Hdb & _ & _ & He & _ & _ & _ & Hidle').
  exists w'. split; [exact Hrun|]. split; [exact Hdb|]. split; [exact He|exact Hidle'].
Qed.

(** The event loop from a world in which a callback is queued whenever
    the backward cursor is above zero.  Of the queued callbacks one
    belongs to the catch-up under way, when there is one; the others are
    left over.  The loop runs [batches] callbacks to bring the cursor to
    zero and then the left-over ones; the callback of the catch-up is
    queued again by each invocation but the last of the [batches]. *)
Lemma idle_run_spec fuel w :
  earliest_index_ (view w) ≤ length (log (db_ w)) →
  (0 < earliest_index_ (view w) → 0 < idle_callbacks w) →
  let e := earliest_index_ (view w) in
  let left_over := idle_callbacks w - (if decide (0 < e) then 1 else 0) in
  ∃ w', idle_run fuel w = Some (w', fuel `min` (batches e + left_over)) ∧
        earliest_index_ (view w') = e - 100 * fuel ∧
        idle_callbacks w' =
          (if decide (fuel < batches e) then idle_callbacks w
           else batches e + left_over - fuel).
Proof.
  revert w. induction fuel as [|fuel IH]; intros w Hle Hsched e left_over.
  - exists w. cbn [idle_run]. split; [done|]. split; [lia|].
    pose proof (batches_pos e). subst left_over.
    repeat case_decide; lia.
  - cbn [idle_run]. destruct (idle_callbacks w) as [|n] eqn:Hq.
    + assert (e = 0) as He0 by (subst e; lia).
      exists w. pose proof (batches_pos e). subst left_over.
      rewrite Hq. split; [f_equal; f_equal; lia|]. split; [lia|].
      repeat case_decide; lia.
    + destruct (idle_timeout_spec w n Hq Hle) as (w1 & Hrun & Hdb & He & Hidle1).
      fold e in He, Hidle1.
      destruct (IH w1) as (w' & Hrun' & He' & Hidle').
      { rewrite He, Hdb. lia. }
      { rewrite He, Hidle1. intros Hpos. rewrite decide_True by done. lia. }
      cbn zeta in Hrun', He', Hidle'.
      rewrite ?He, ?Hidle1 in Hrun'. rewrite ?He in He'. rewrite ?He, ?Hidle1 in Hidle'.
      exists w'. rewrite Hrun. cbn [mbind option_bind]. rewrite Hrun'.
      cbn [mbind option_bind].
      pose proof (batches_pos e) as Hpe.
      pose proof (batches_pos (e - 100 `min` e)) as Hpe1.
      assert (0 < e → batches e = S (batches (e - 100 `min` e))) as Hstep
        by apply batches_step.
      subst left_over.
      generalize dependent (batches (e - 100 `min` e)). intros b1.
      generalize dependent (batches e). intros b.
      intros. split; [|split].
      * f_equal. f_equal. repeat case_decide; lia.
      * rewrite He'. lia.
      * rewrite Hidle'. repeat case_decide; lia.
Qed.

End CatchUp.

(** C7.  After a reset over a database of [N] records: [k] invocations of
    [processOldMessages] in a row leave the backward cursor at [N - 100 k],
    so it is at zero exactly from the [batches N]-th invocation on
    ([N / 100] rounded up), and the callbacks queued stop growing in number
    with the last but one of them: the invocation that leaves the cursor at
    zero schedules nothing, nor does any later one.  The event loop, left
    alone, brings the cursor to zero with its first [batches N] callbacks;
    the only callbacks it has left then are those that were queued before
    the reset, it runs each of them once and none is added, so it stops
    after [batches N] callbacks plus those.  One invocation examines
    [i = min 100 earliest_index_] positions (the final value of the loop
    counter) and moves the cursor down by [i], whatever the filter accepts. *)
Theorem C7_catch_up_terminates `{External} (w0 : World) :
  let N := length (log (db_ w0)) in
  let stale := idle_callbacks w0 in
  (∀ k, ∃ wk, catch_up k (reset w0) = Some wk ∧
        earliest_index_ (view wk) = N - 100 * k ∧
        (earliest_index_ (view wk) = 0 ↔ batches N ≤ k) ∧
        idle_callbacks wk = stale + S k `min` batches N) ∧
  (∀ fuel, ∃ w, idle_run fuel (reset w0) = Some (w, fuel `min` (batches N + stale)) ∧
        earliest_index_ (view w) = N - 100 * fuel ∧
        (earliest_index_ (view w) = 0 ↔ batches N ≤ fuel) ∧
        idle_callbacks w =
          (if decide (fuel < batches N) then S stale else batches N + stale - fuel)) ∧
  (∀ f lg e early, e ≤ length lg →
     ∃ early' i, old_loop f lg 100 0 e early = Some (e - i, early', i) ∧
                 i = 100 `min` e ∧ i ≤ 100).
Proof.
  intros N stale.
  destruct (reset_frame w0) as (Hdb & _).
  pose proof (reset_view w0) as Hview.
  pose proof (reset_idle w0) as Hri. fold N stale in Hri.
  pose proof (batches_pos N) as HposN.
  split; [|split].
  - intros k. destruct (catch_up_spec k (reset w0)) as (wk & Hrun & He & _ & Hidle).
    { rewrite Hview, Hdb. done. }
    rewrite Hview in He, Hidle. cbn [earliest_index_] in He, Hidle. fold N in He, Hidle.
    exists wk. split; [done|]. split; [done|]. split.
    + rewrite He, batches_le. lia.
    + rewrite Hidle, Hri. case_decide; lia.
  - intros fuel.
    destruct (idle_run_spec fuel (reset w0)) as (w & Hrun & He & Hi).
    { rewrite Hview, Hdb. done. }
    { rewrite Hview, Hri. cbn. intros Hpos. rewrite decide_True by done. lia. }
    cbn zeta in Hrun, He, Hi. rewrite Hview in Hrun, He, Hi.
    cbn [earliest_index_] in Hrun, He, Hi. fold N in Hrun, He, Hi.
    rewrite Hri in Hrun, Hi.
    assert (stale = (if decide (0 < N) then S stale else stale)
                    - (if decide (0 < N) then 1 else 0)) as Hleft
      by (repeat case_decide; lia).
    rewrite <- Hleft in Hrun, Hi.
    exists w. split; [done|]. split; [done|]. split.
    + rewrite He, batches_le. lia.
    + rewrite Hi. repeat case_decide; lia.
  - intros f lg e early Hle.
    exists (accepted_range f lg (e - 100 `min` e) e ++ early), (100 `min` e).
    rewrite old_loop_spec by done. split; [done|]. split; [done|lia].
Qed.

(** With a callback left over from an earlier reset, the event loop runs
    four callbacks over 250 records: three for the catch-up and the one
    left over. *)
Lemma C7_catch_up_terminates_witness :
  ∃ w, idle_run (H := Example.external) 10 (reset Example.backlog250_stale) = Some (w, 4) ∧
       earliest_index_ (view w) = 0 ∧ idle_callbacks w = 0.
Proof.
  destruct (C7_catch_up_terminates (H := Example.external) Example.backlog250_stale)
    as (_ & Hrun & _).
  destruct (Hrun 10) as (w & Hw & He & _ & Hi).
  exists w. split; [exact Hw|]. split; [exact He|exact Hi].
Defined.

(** C10.  [clear] empties the database itself before it resets the view:
    afterwards the log has no records, whatever it held before, the view
    and the pending batch are empty and both cursors are at zero, and no
    idle callback is queued for it. *)
Theorem C10_clear_empties_database (w : World) :
  log (db_ (clear w)) = [] ∧
  length (log (db_ (clear w))) = 0 ∧
  earliest_index_ (view (clear w)) = 0 ∧
  latest_index_ (view (clear w)) = 0 ∧
  msg_mapping_ (view (clear w)) = [] ∧
  early_mapping_ (view (clear w)) = [] ∧
  idle_callbacks (clear w) = idle_callbacks w.
Proof.
  unfold clear.
  destruct (reset_frame (with_db (db_clear (db_ w)) w)) as (-> & _).
  rewrite reset_view, reset_idle. cbn.
  by repeat split.
Qed.

(** ** Row lookup *)

Section RowLookup.
Context `{External}.
Implicit Types (w : World).

Lemma rowCount_le_size w :
  (rowCount w QModelIndex_null ≤ Z.of_nat (length (msg_mapping_ (view w))))%Z.
Proof. unfold rowCount. cbn. apply to_int_le. lia. Qed.

Lemma rowCount_upper w parent : (rowCount w parent ≤ CInt.INT_MAX)%Z.
Proof.
  unfold rowCount. destruct (index_isValid parent); [done|]. apply to_int_upper.
Qed.

Lemma data_in_range w idx role :
  (0 ≤ row idx < rowCount w QModelIndex_null)%Z →
  ∃ p, msg_mapping_ (view w) !! Z.to_nat (row idx) = Some p ∧
       data w idx role = (λ item, render w item role) <$> log (db_ w) !! p.
Proof.
  intros [Hlo Hhi].
  pose proof (rowCount_le_size w). pose proof (rowCount_upper w QModelIndex_null).
  assert (CInt.to_size_t (row idx) = row idx) as Hrow.
  { apply to_size_t_small. unfold CInt.INT_MAX in *. lia. }
  destruct (lookup_lt_is_Some_2 (msg_mapping_ (view w)) (Z.to_nat (row idx)))
    as [p Hp]; [lia|].
  exists p. split; [done|]. unfold data. rewrite Hrow.
  rewrite (proj2 (Z.leb_gt _ _)) by lia. rewrite andb_false_r.
  rewrite Hp. cbn. by destruct (log (db_ w) !! p).
Qed.

Lemma data_guarded w idx role :
  parent_isValid idx = true →
  (Z.of_nat (length (msg_mapping_ (view w))) ≤ CInt.to_size_t (row idx))%Z →
  data w idx role = Some QVariant_null.
Proof.
  intros Hparent Hge. unfold data.
  by rewrite Hparent, (proj2 (Z.leb_le _ _)) by done.
Qed.

(** An index without a valid parent never takes the guard of [data]: with
    a row at or beyond the size of the view the deque is subscripted out
    of range. *)
Lemma data_unguarded w idx role :
  parent_isValid idx = false →
  (Z.of_nat (length (msg_mapping_ (view w))) ≤ CInt.to_size_t (row idx))%Z →
  data w idx role = None.
Proof.
  intros Hparent Hge. unfold data. rewrite Hparent, andb_false_l.
  rewrite (lookup_ge_None_2 (msg_mapping_ (view w))) by lia. done.
Qed.

End RowLookup.

(** C4.  [data] has no answer that tells a row out of range from a row
    of the view.  Its guard returns the empty variant only for an index
    with a valid parent, which an index of this list model never has, so
    the rows it is meant for never reach it.  In a view of three rows, the
    index of row 3 and the null index, which is what [index] gives for
    row 3, both pass the guard by and subscript [msg_mapping_] out of
    range, under every role; the rows 0 to 2 are rendered from the records
    at the positions 1 to 3 that the view holds for them. *)
Theorem C4_row_lookup_unguarded (role : Z) :
  rowCount Example.caught_up QModelIndex_null = 3%Z ∧
  data (H := Example.external) Example.caught_up (Example.top_index 3) role = None ∧
  index Example.caught_up 3 = QModelIndex_null ∧
  data (H := Example.external) Example.caught_up QModelIndex_null role = None ∧
  msg_mapping_ (view Example.caught_up) = [1; 2; 3] ∧
  data (H := Example.external) Example.caught_up (Example.top_index 0) role =
    (λ item, render (H := Example.external) Example.caught_up item role)
      <$> log (db_ Example.caught_up) !! 1 ∧
  data (H := Example.external) Example.caught_up (Example.top_index 1) role =
    (λ item, render (H := Example.external) Example.caught_up item role)
      <$> log (db_ Example.caught_up) !! 2 ∧
  data (H := Example.external) Example.caught_up (Example.top_index 2) role =
    (λ item, render (H := Example.external) Example.caught_up item role)
      <$> log (db_ Example.caught_up) !! 3.
Proof.
  assert (msg_mapping_ (view Example.caught_up) = [1; 2; 3]) as Hview
    by by vm_compute.
  assert (rowCount Example.caught_up QModelIndex_null = 3%Z) as Hrows
    by by vm_compute.
  assert (∀ r p, (0 ≤ r < 3)%Z → [1; 2; 3] !! Z.to_nat r = Some p →
            data (H := Example.external) Example.caught_up (Example.top_index r) role =
            (λ item, render (H := Example.external) Example.caught_up item role)
              <$> log (db_ Example.caught_up) !! p) as Hin.
  { intros r p Hr Hp.
    destruct (data_in_range (H := Example.external) Example.caught_up
                (Example.top_index r) role) as (p' & Hp' & ->).
    { by rewrite Hrows. }
    rewrite Hview in Hp'. cbn [row Example.top_index] in Hp'. congruence. }
  split; [exact Hrows|]. split; [|split; [by vm_compute|split; [|split; [exact Hview|]]]].
  - apply data_unguarded; [reflexivity|]. rewrite Hview. by vm_compute.
  - apply data_unguarded; [reflexivity|]. rewrite Hview. by vm_compute.
  - split; [|split]; apply Hin; done.
Qed.

(** C5, as the code has it.  [setIncludeRegexpPattern] stores the pattern
    it is given and resets the view even when the pattern is malformed:
    afterwards [isIncludeValid] is false exactly when pattern mode is on,
    [rowCount] is zero and both cursors are at the size of the database. *)
Theorem C5_malformed_include_pattern `{External} (p : string) (w : World) :
  QRegExp_compiles p = false →
  isIncludeValid (setIncludeRegexpPattern p w) =
    negb (use_regular_expressions_ (config w)) ∧
  pattern (include_regexp_ (config (setIncludeRegexpPattern p w))) = p ∧
  rowCount (setIncludeRegexpPattern p w) QModelIndex_null = 0%Z ∧
  earliest_index_ (view (setIncludeRegexpPattern p w)) = length (log (db_ w)) ∧
  latest_index_ (view (setIncludeRegexpPattern p w)) = length (log (db_ w)).
Proof.
  intros Hbad. unfold setIncludeRegexpPattern, isIncludeValid, rowCount.
  match goal with |- context [reset ?x] =>
    destruct (reset_frame x) as (_ & -> & _); rewrite (reset_view x)
  end.
  cbn. unfold isValid. cbn. rewrite Hbad.
  by destruct (use_regular_expressions_ (config w)).
Qed.

Lemma C5_malformed_include_pattern_witness :
  isIncludeValid (H := Example.external)
    (setIncludeRegexpPattern "(" Example.caught_up) = true ∧
  rowCount
    (setIncludeRegexpPattern "(" Example.caught_up) QModelIndex_null = 0%Z.
Proof.
  destruct (C5_malformed_include_pattern (H := Example.external) "(" Example.caught_up)
    as (Hvalid & _ & Hrows & _).
  - reflexivity.
  - split; [exact Hvalid | exact Hrows].
Defined.

(** The claim C5 fails: in text mode, with three rows in the view, the
    malformed pattern ["("] leaves [isIncludeValid] true and takes
    [rowCount] from 3 to 0. *)
Lemma C5_counterexample :
  QRegExp_compiles (External := Example.external) "(" = false ∧
  rowCount Example.caught_up QModelIndex_null = 3%Z ∧
  isIncludeValid (H := Example.external)
    (setIncludeRegexpPattern "(" Example.caught_up) = true ∧
  rowCount
    (setIncludeRegexpPattern "(" Example.caught_up) QModelIndex_null = 0%Z.
Proof. by vm_compute. Qed.

(** ** Export *)

Section ExportFacts.
Context `{External}.
Implicit Types (w : World).

Lemma append_assoc (a b c : string) : (a +:+ b) +:+ c = a +:+ (b +:+ c).
Proof.
  induction a as [|ch a IH]; [done|].
  change (String ch ((a +:+ b) +:+ c) = String ch (a +:+ (b +:+ c))).
  by rewrite IH.
Qed.

Lemma append_empty_r (a : string) : a +:+ EmptyString = a.
Proof.
  induction a as [|ch a IH]; [done|].
  change (String ch (a +:+ EmptyString) = String ch a). by rewrite IH.
Qed.

(** The bag loop writes one record for each record of the log, in order. *)
Lemma bag_loop_messages clock k rest records warnings :
  (bag_message <$> (bag_loop clock k rest records warnings).1) =
    (bag_message <$> records) ++
    imap (λ j item, bag_message (bag_record (clock (k + j)) item).1) rest.
Proof.
  revert k records warnings.
  induction rest as [|item rest IH]; intros k records warnings; cbn [bag_loop imap].
  - by rewrite app_nil_r.
  - rewrite Nat.add_0_r.
    destruct (bag_record (clock k) item) as [r ws].
    rewrite IH, fmap_app, <- app_assoc. cbn [fmap list_fmap app fst].
    do 2 f_equal. apply imap_ext. intros j x _. cbn [compose].
    by replace (S k + j) with (k + S j) by lia.
Qed.

Lemma bag_record_message now item :
  Ros.log_msg (bag_message (bag_record now item).1) = msg item ∧
  Ros.log_level (bag_message (bag_record now item).1) = level item ∧
  Ros.log_name (bag_message (bag_record now item).1) = node item ∧
  Ros.header_seq (bag_message (bag_record now item).1) = seq item.
Proof. done. Qed.

(** [saveBagFile] writes every record of the database, whatever the view
    holds. *)
Lemma saveBagFile_all_records clock w :
  ∃ records warnings,
    saveBagFile clock w = BagFile records warnings ∧
    (Ros.log_msg ∘ bag_message) <$> records = msg <$> log (db_ w).
Proof.
  unfold saveBagFile.
  pose proof (bag_loop_messages clock 0 (log (db_ w)) [] []) as Hloop.
  destruct (bag_loop clock 0 (log (db_ w)) [] []) as [records warnings].
  exists records, warnings. split; [reflexivity|].
  rewrite list_fmap_compose. cbn [fst] in Hloop. rewrite Hloop. cbn [fmap list_fmap app].
  rewrite fmap_imap, <- (imap_const msg).
  apply imap_ext. by intros j item _.
Qed.

(** [saveTextFile] writes the rendered rows of the view, in order. *)
Lemma text_loop_spec w fuel k out :
  (Z.of_nat (length (msg_mapping_ (view w))) ≤ CInt.INT_MAX)%Z →
  Forall (λ p, p < length (log (db_ w))) (msg_mapping_ (view w)) →
  k ≤ length (msg_mapping_ (view w)) →
  length (msg_mapping_ (view w)) - k < fuel →
  text_loop w fuel (Z.of_nat k) out =
    Some (out +:+ text_rows w (drop k (msg_mapping_ (view w)))).
Proof.
  intros Hfits Hstore. revert k out.
  induction fuel as [|fuel IH]; intros k out Hk Hfuel; [lia|].
  cbn [text_loop].
  rewrite to_size_t_small by (unfold CInt.INT_MAX in *; lia).
  destruct (decide (k < length (msg_mapping_ (view w)))) as [Hlt|Hge].
  - rewrite (proj2 (Z.ltb_lt _ _)) by lia.
    assert (rowCount w QModelIndex_null = Z.of_nat (length (msg_mapping_ (view w))))
      as Hrows.
    { unfold rowCount. cbn. apply to_int_small. lia. }
    assert (index w (Z.of_nat k) =
            {| row := Z.of_nat k; index_isValid := true; parent_isValid := false |})
      as Hidx.
    { unfold index. rewrite Hrows.
      by rewrite (proj2 (Z.leb_le _ _)), (proj2 (Z.ltb_lt _ _)) by lia. }
    destruct (data_in_range w (index w (Z.of_nat k)) DisplayRole) as (p & Hp & Hdata).
    { rewrite Hidx, Hrows. cbn. lia. }
    rewrite Hidx in Hp. cbn in Hp. rewrite Nat2Z.id in Hp.
    rewrite Hdata. 
    destruct (lookup_lt_is_Some_2 (log (db_ w)) p) as [item Hitem].
    { by apply (proj1 (Forall_forall _ _) Hstore), list_elem_of_lookup_2 with k. }
    rewrite Hitem. cbn [fmap option_fmap option_map mbind option_bind].
    rewrite (proj2 (Z.ltb_lt _ _)) by lia.
    replace (Z.of_nat k + 1)%Z with (Z.of_nat (S k)) by lia.
    rewrite IH by lia. rewrite (drop_S _ _ _ Hp). cbn [text_rows].
    rewrite Hitem. cbn. by rewrite !append_assoc.
  - rewrite (proj2 (Z.ltb_ge _ _)) by lia.
    rewrite drop_ge by lia. cbn. by rewrite append_empty_r.
Qed.

Lemma saveTextFile_rows w :
  (Z.of_nat (length (msg_mapping_ (view w))) ≤ CInt.INT_MAX)%Z →
  Forall (λ p, p < length (log (db_ w))) (msg_mapping_ (view w)) →
  saveTextFile w = Some (TextFile (text_rows w (msg_mapping_ (view w)))).
Proof.
  intros Hfits Hstore. unfold saveTextFile.
  change 0%Z with (Z.of_nat 0). rewrite text_loop_spec by (done || lia).
  done.
Qed.

End ExportFacts.

(** C8 at a database of four records of which the view holds three: the
    text export writes the three rows of the view, and the bag export
    writes four records, among them the INFO record "starting" that the
    filter rejects and the view does not hold. *)
Theorem C8_bag_export_ignores_view (clock : nat → Ros.Time) :
  msg_mapping_ (view Example.caught_up) = [1; 2; 3] ∧
  saveTextFile (H := Example.external) Example.caught_up =
    Some (TextFile (text_rows (H := Example.external) Example.caught_up [1; 2; 3])) ∧
  acceptLogEntry (H := Example.external) (config Example.caught_up)
    (Example.entry Ros.INFO "A" "starting") = false ∧
  ∃ records warnings,
    saveBagFile clock Example.caught_up = BagFile records warnings ∧
    (Ros.log_msg ∘ bag_message) <$> records =
      ["starting"; "Connection Timeout occurred"; "all good"; "new"]%string.
Proof.
  split; [by vm_compute|]. split; [by vm_compute|]. split; [by vm_compute|].
  destruct (saveBagFile_all_records clock Example.caught_up)
    as (records & warnings & Hsave & Hmsgs).
  exists records, warnings. split; [done|]. rewrite Hmsgs. by vm_compute.
Qed.

(** * Further properties of the proxy model *)

(** ** The engine invariant over arbitrary runs *)

Section EngineInvariant.
Context `{External}.
Implicit Types (w : World).

Lemma view_inv_cursors n w :
  view_inv n w →
  earliest_index_ (view w) ≤ n ∧ n ≤ latest_index_ (view w) ∧
  latest_index_ (view w) ≤ length (log (db_ w)).
Proof. intros (fl & ? & ? & ? & ? & _). lia. Qed.

Lemma engine_inv_reset w : engine_inv (reset w).
Proof.
  split; [eexists; apply view_inv_reset|].
  rewrite reset_view, reset_idle. cbn. split; [lia|].
  intros Hpos. rewrite decide_True by done. lia.
Qed.

Lemma engine_inv_same_view w w' :
  log (db_ w') = log (db_ w) → config w' = config w → view w' = view w →
  idle_callbacks w' = idle_callbacks w →
  engine_inv w → engine_inv w'.
Proof.
  intros Hlog Hcfg Hview Hidle ([n Hinv] & Hbound & Hsched).
  split; [exists n; by apply (view_inv_same_state n w)|].
  by rewrite Hview, Hidle.
Qed.

Lemma engine_inv_processNewMessages w :
  engine_inv w → engine_inv (processNewMessages w).
Proof.
  intros ([n Hinv] & Hbound & Hsched).
  split; [exists n; by apply view_inv_processNewMessages|].
  by destruct (processNewMessages_frame w) as (_ & _ & _ & -> & -> & ->).
Qed.

Lemma engine_inv_processOldMessages w k :
  engine_inv w →
  ∃ w', processOldMessages (with_idle_callbacks k w) = Some w' ∧ engine_inv w'.
Proof.
  intros ([n Hinv] & Hbound & Hsched).
  assert (view_inv n (with_idle_callbacks k w)) as Hinv'
    by by apply (view_inv_same_state n w).
  destruct (view_inv_processOldMessages n _ Hinv') as (w' & Hrun & Hinv1 & _).
  destruct (view_inv_cursors n _ Hinv') as (? & ? & ?).
  destruct (processOldMessages_spec (with_idle_callbacks k w)) as
    (w'' & Hrun' & _ & _ & _ & He & _ & _ & Hp & Hidle); [lia|].
  rewrite Hrun in Hrun'. injection Hrun' as <-.
  exists w'. split; [done|]. split; [by exists n|]. split.
  - rewrite Hp. destruct (flushes _ _) eqn:Hfl; [cbn; lia|].
    unfold flushes in Hfl. apply orb_false_iff in Hfl as [_ Hfl].
    apply bool_decide_eq_false_1 in Hfl. lia.
  - rewrite He, Hidle. intros Hpos. rewrite decide_True by done. lia.
Qed.

Lemma emit_dataChanged_idle w : idle_callbacks (emit_dataChanged w) = idle_callbacks w.
Proof. done. Qed.

Lemma minTimeUpdated_idle w : idle_callbacks (minTimeUpdated w) = idle_callbacks w.
Proof. unfold minTimeUpdated. by destruct (_ && _). Qed.

Lemma setAbsoluteTime_idle b w : idle_callbacks (setAbsoluteTime b w) = idle_callbacks w.
Proof. unfold setAbsoluteTime. case_bool_decide; [done|]. by destruct (_ && _). Qed.

Lemma setDisplayTime_idle b w : idle_callbacks (setDisplayTime b w) = idle_callbacks w.
Proof. unfold setDisplayTime. case_bool_decide; [done|]. by destruct (negb _). Qed.

Lemma exec_engine_inv op w :
  engine_inv w → ∃ w', exec op w = Some w' ∧ engine_inv w'.
Proof.
  intros Hinv. destruct op; cbn [exec];
    try (eexists; split; [done|]; apply engine_inv_reset).
  - eexists. split; [done|]. destruct Hinv as ([n Hv] & ? & ?).
    split; [exists n; by apply view_inv_append|done].
  - eexists. split; [done|]. by apply (engine_inv_same_view w).
  - eexists. split; [done|]. by apply engine_inv_processNewMessages.
  - destruct (engine_inv_processOldMessages w (idle_callbacks w) Hinv) as (w' & Hrun & ?).
    exists w'. split; [|done]. by destruct w.
  - unfold idle_timeout. destruct (idle_callbacks w) as [|k] eqn:Hk.
    + by exists w.
    + by apply engine_inv_processOldMessages.
  - eexists. split; [done|].
    destruct (minTimeUpdated_state w) as (Hd & Hc & Hv).
    apply (engine_inv_same_view w); rewrite ?Hd, ?minTimeUpdated_idle; done.
  - eexists. split; [done|].
    destruct (setAbsoluteTime_state absolute w) as (Hd & Hc & Hv).
    apply (engine_inv_same_view w); rewrite ?Hd, ?setAbsoluteTime_idle; done.
  - eexists. split; [done|].
    destruct (setDisplayTime_state display_flag w) as (Hd & Hc & Hv).
    apply (engine_inv_same_view w); rewrite ?Hd, ?setDisplayTime_idle; done.
  - eexists. split; [done|]. unfold setUseRegularExpressions.
    case_bool_decide; [done|apply engine_inv_reset].
Qed.

Lemma run_engine_inv ops w :
  engine_inv w → ∃ w', run ops w = Some w' ∧ engine_inv w'.
Proof.
  revert w. induction ops as [|op ops IH]; intros w Hinv.
  - by exists w.
  - destruct (exec_engine_inv op w Hinv) as (w1 & Hexec & Hinv1).
    destruct (IH w1 Hinv1) as (w2 & Hrun & Hinv2).
    exists w2. cbn [run]. by rewrite Hexec.
Qed.

Lemma engine_inv_accounted w :
  engine_inv w →
  early_mapping_ (view w) ++ msg_mapping_ (view w) =
    accepted_range (config w) (log (db_ w)) (earliest_index_ (view w))
      (latest_index_ (view w)).
Proof.
  intros ([n (fl & ? & ? & ? & ? & -> & -> & _)] & _).
  symmetry. apply accepted_range_split; lia.
Qed.

End EngineInvariant.

(** X1.  At every point after a reset, whatever operations have run, the
    pending batch [early_mapping_] holds at most 200 positions: a batch
    that grows beyond 200 is merged into the view by the invocation of
    [processOldMessages] that made it grow. *)
Theorem X1_pending_batch_bounded `{External} (w0 : World) (ops : list Op) :
  ∃ w, run ops (reset w0) = Some w ∧ length (early_mapping_ (view w)) ≤ 200.
Proof.
  destruct (run_engine_inv ops (reset w0) (engine_inv_reset w0))
    as (w & Hrun & _ & Hbound & _).
  by exists w.
Qed.

(** X2.  At every point after a reset the pending batch followed by the
    view is exactly the ascending list of the accepted positions between
    the two cursors: every position the scans have examined is accounted
    for once, and none outside them is present. *)
Theorem X2_examined_positions_accounted `{External} (w0 : World) (ops : list Op) :
  ∃ w, run ops (reset w0) = Some w ∧
    early_mapping_ (view w) ++ msg_mapping_ (view w) =
      accepted_range (config w) (log (db_ w)) (earliest_index_ (view w))
        (latest_index_ (view w)) ∧
    StronglySorted lt (early_mapping_ (view w) ++ msg_mapping_ (view w)) ∧
    earliest_index_ (view w) ≤ latest_index_ (view w) ∧
    latest_index_ (view w) ≤ length (log (db_ w)).
Proof.
  destruct (run_engine_inv ops (reset w0) (engine_inv_reset w0)) as (w & Hrun & Hinv).
  exists w. split; [done|].
  rewrite (engine_inv_accounted w Hinv).
  split; [done|]. split; [apply accepted_range_sorted|].
  destruct Hinv as ([n Hv] & _). destruct (view_inv_cursors n w Hv). lia.
Qed.

(** X3.  At every point after a reset, while the backward cursor is not at
    zero at least one idle callback is queued, so the catch-up cannot be
    left unfinished with nothing scheduled to continue it. *)
Theorem X3_callback_queued_while_backlog `{External} (w0 : World) (ops : list Op) :
  ∃ w, run ops (reset w0) = Some w ∧
       (earliest_index_ (view w) = 0 ∨ 0 < idle_callbacks w).
Proof.
  destruct (run_engine_inv ops (reset w0) (engine_inv_reset w0))
    as (w & Hrun & _ & _ & Hsched).
  exists w. split; [done|].
  destruct (decide (earliest_index_ (view w) = 0)); [by left|right].
  apply Hsched. lia.
Qed.

Section StaleCallback.
Context `{External}.

Lemma processOldMessages_done (w : World) :
  earliest_index_ (view w) = 0 → early_mapping_ (view w) = [] →
  processOldMessages w = Some w.
Proof.
  intros He Hp. destruct w as [d c di [m p e l] em ic]. cbn in He, Hp. subst.
  reflexivity.
Qed.

End StaleCallback.

(** X4.  Once the catch-up is complete, a further invocation of
    [processOldMessages] (a stale idle callback, say) changes nothing: the
    view, the cursors, the signals emitted and the callbacks queued stay as
    they are. *)
Theorem X4_catch_up_complete_is_final `{External} (w0 : World) (ops : list Op) :
  ∃ w, run ops (reset w0) = Some w ∧
       (earliest_index_ (view w) = 0 → processOldMessages w = Some w).
Proof.
  destruct (run_engine_inv ops (reset w0) (engine_inv_reset w0))
    as (w & Hrun & [n Hv] & _).
  exists w. split; [done|]. intros He.
  apply processOldMessages_done; [done|].
  destruct Hv as (fl & _ & _ & _ & _ & _ & _ & Hz). by apply Hz.
Qed.

Lemma X4_catch_up_complete_is_final_witness :
  processOldMessages (H := Example.external) Example.caught_up = Some Example.caught_up.
Proof.
  destruct (X4_catch_up_complete_is_final (H := Example.external) Example.backlog
              Example.ops_catch_up) as (w & Hrun & Hdone).
  assert (w = Example.caught_up) as ->.
  { vm_compute in Hrun. injection Hrun as <-. reflexivity. }
  apply Hdone. reflexivity.
Defined.

(** ** How the two scans compose *)

Section Composition.
Context `{External}.
Implicit Types (w : World).

Lemma view_eq (v1 v2 : View) :
  msg_mapping_ v1 = msg_mapping_ v2 → early_mapping_ v1 = early_mapping_ v2 →
  earliest_index_ v1 = earliest_index_ v2 → latest_index_ v1 = latest_index_ v2 →
  v1 = v2.
Proof. destruct v1, v2. cbn. by intros -> -> -> ->. Qed.

Lemma scans_commute w :
  engine_inv w →
  ∃ w1 w2, processOldMessages w = Some w1 ∧
           processOldMessages (processNewMessages w) = Some w2 ∧
           view (processNewMessages w1) = view w2 ∧
           db_ (processNewMessages w1) = db_ w2 ∧
           config (processNewMessages w1) = config w2 ∧
           idle_callbacks (processNewMessages w1) = idle_callbacks w2.
Proof.
  intros ([n Hv] & _). destruct (view_inv_cursors n w Hv) as (? & ? & Hlen).
  destruct (processNewMessages_frame w) as (Hdb & Hcfg & _ & Hidle & Hearly & He).
  destruct (processNewMessages_view w Hlen) as [Hmsg Hlatest].
  destruct (processOldMessages_spec w) as
    (w1 & Hrun1 & Hdb1 & Hcfg1 & _ & He1 & Hl1 & Hm1 & Hp1 & Hi1); [lia|].
  destruct (processOldMessages_spec (processNewMessages w)) as
    (w2 & Hrun2 & Hdb2 & Hcfg2 & _ & He2 & Hl2 & Hm2 & Hp2 & Hi2).
  { rewrite He, Hdb. lia. }
  rewrite He, Hdb, Hcfg, Hearly in *.
  exists w1, w2. split; [done|]. split; [done|].
  destruct (processNewMessages_frame w1) as (Hdb' & Hcfg' & _ & Hidle' & Hearly' & He').
  destruct (processNewMessages_view w1) as [Hmsg' Hlatest'].
  { rewrite Hl1, Hdb1. lia. }
  split; [|by rewrite Hdb', Hcfg', Hidle', Hdb1, Hdb2, Hcfg1, Hcfg2, Hi1, Hi2, Hidle].
  apply view_eq.
  - rewrite Hmsg', Hm1, Hm2, Hmsg, Hl1, Hdb1, Hcfg1.
    destruct (flushes _ _); by rewrite <- ?app_assoc.
  - by rewrite Hearly', Hp1, Hp2.
  - by rewrite He', He1, He2.
  - by rewrite Hlatest', Hl2, Hlatest, Hdb1.
Qed.

Lemma run_replicate_old k w :
  run (replicate k ProcessOldMessages) w = catch_up k w.
Proof.
  revert w. induction k as [|k IH]; intros w; [done|].
  cbn [replicate run exec catch_up].
  destruct (processOldMessages w) as [w1|]; [|done]. cbn. apply IH.
Qed.

Lemma catch_up_view_inv n k w :
  view_inv n w →
  ∃ wk, catch_up k w = Some wk ∧ view_inv n wk ∧ db_ wk = db_ w ∧
        config wk = config w ∧
        earliest_index_ (view wk) = earliest_index_ (view w) - 100 * k.
Proof.
  revert w. induction k as [|k IH]; intros w Hv.
  - exists w. cbn [catch_up]. repeat split; try done. lia.
  - destruct (view_inv_processOldMessages n w Hv) as (w1 & Hrun & Hv1 & Hdb & Hcfg).
    destruct (view_inv_cursors n w Hv) as (? & ? & ?).
    destruct (processOldMessages_spec w) as (w1' & Hrun' & _ & _ & _ & He & _); [lia|].
    rewrite Hrun in Hrun'. injection Hrun' as <-.
    destruct (IH w1 Hv1) as (wk & Hk & Hvk & Hdbk & Hcfgk & Hek).
    exists wk. cbn [catch_up]. rewrite Hrun. cbn [mbind option_bind].
    repeat split; try done; try congruence. rewrite Hek, He. lia.
Qed.

Lemma rebuild_converges k w :
  engine_inv w → batches (earliest_index_ (view w)) ≤ k →
  ∃ w', run (replicate k ProcessOldMessages ++ [ProcessNewMessages]) w = Some w' ∧
        msg_mapping_ (view w') =
          accepted_range (config w) (log (db_ w)) 0 (length (log (db_ w))) ∧
        early_mapping_ (view w') = [] ∧
        db_ w' = db_ w ∧ config w' = config w.
Proof.
  intros ([n Hv] & _) Hk. apply batches_le in Hk.
  destruct (catch_up_view_inv n k w Hv) as (wk & Hrun & Hvk & Hdb & Hcfg & He).
  destruct (view_inv_cursors n wk Hvk) as (_ & ? & Hlen).
  destruct (processNewMessages_frame wk) as (Hdb' & Hcfg' & _ & _ & _ & He').
  destruct (processNewMessages_view wk Hlen) as [_ Hlatest].
  pose proof (view_inv_processNewMessages n wk Hvk) as Hv'.
  destruct (view_inv_complete n _ Hv') as [Hearly Hmsg].
  { rewrite He', He. lia. }
  exists (processNewMessages wk).
  rewrite run_app, run_replicate_old, Hrun. split; [done|].
  rewrite Hdb', Hcfg', Hlatest in Hmsg. rewrite Hdb in *. rewrite Hcfg in *.
  rewrite <- accepted_range_split in Hmsg by lia.
  by rewrite Hdb', Hcfg'.
Qed.

End Composition.

(** X5.  At every point after a reset, a catch-up step and a forward
    extension can be taken in either order: both orders are defined and
    lead to the same view, cursors, database, filter and number of queued
    callbacks (only the order of the emitted signals differs). *)
Theorem X5_scans_commute `{External} (w0 : World) (ops : list Op) :
  ∃ w w1 w2,
    run ops (reset w0) = Some w ∧
    processOldMessages w = Some w1 ∧
    processOldMessages (processNewMessages w) = Some w2 ∧
    view (processNewMessages w1) = view w2 ∧
    db_ (processNewMessages w1) = db_ w2 ∧
    config (processNewMessages w1) = config w2 ∧
    idle_callbacks (processNewMessages w1) = idle_callbacks w2.
Proof.
  destruct (run_engine_inv ops (reset w0) (engine_inv_reset w0)) as (w & Hrun & Hinv).
  destruct (scans_commute w Hinv) as (w1 & w2 & ?).
  by exists w, w1, w2.
Qed.

(** X6.  From any point after a reset (whatever configuration slots,
    resets and partial scans came before), enough invocations of
    [processOldMessages] to cover the backward cursor followed by one
    forward extension leave the view equal to the ascending list of all
    accepted positions of the database under the filter in force: the
    view then depends on the database and the filter only, not on the
    history. *)
Theorem X6_rebuild_converges `{External} (w0 : World) (ops : list Op) (k : nat) :
  ∃ w1, run ops (reset w0) = Some w1 ∧
    (batches (earliest_index_ (view w1)) ≤ k →
     ∃ w, run (replicate k ProcessOldMessages ++ [ProcessNewMessages]) w1 = Some w ∧
          msg_mapping_ (view w) =
            accepted_range (config w1) (log (db_ w1)) 0 (length (log (db_ w1))) ∧
          early_mapping_ (view w) = [] ∧
          db_ w = db_ w1 ∧ config w = config w1).
Proof.
  destruct (run_engine_inv ops (reset w0) (engine_inv_reset w0)) as (w1 & Hrun & Hinv).
  exists w1. split; [done|]. intros Hk. by apply rebuild_converges.
Qed.

Lemma X6_rebuild_converges_witness :
  ∃ w1 w,
    run (H := Example.external) Example.ops_refilter (reset Example.backlog) = Some w1 ∧
    run (H := Example.external) (replicate 1 ProcessOldMessages ++ [ProcessNewMessages]) w1
      = Some w ∧
    msg_mapping_ (view w) = [0].
Proof.
  destruct (X6_rebuild_converges (H := Example.external) Example.backlog
              Example.ops_refilter 1) as (w1 & Hrun & Hconv).
  pose proof Hrun as Hrun'. vm_compute in Hrun'. injection Hrun' as <-.
  destruct Hconv as (w & Hrun2 & Hmsg & _).
  { vm_compute. lia. }
  eexists _, w. split; [exact Hrun|]. split; [exact Hrun2|].
  rewrite Hmsg. reflexivity.
Defined.

(** ** The view under the constructor's connections *)

Section Connected.
Context `{External}.
Implicit Types (w : World).

Lemma in_sync_reset w : in_sync (reset w).
Proof. unfold in_sync. destruct (reset_frame w) as (-> & _). by rewrite reset_view. Qed.

Lemma in_sync_processOldMessages n w w' :
  view_inv n w → in_sync w → processOldMessages w = Some w' → in_sync w'.
Proof.
  intros Hv Hsync Hrun.
  destruct (view_inv_cursors n w Hv) as (? & ? & ?).
  destruct (processOldMessages_spec w) as
    (w'' & Hrun' & Hdb & _ & _ & _ & Hl & _); [lia|].
  rewrite Hrun in Hrun'. injection Hrun' as <-.
  unfold in_sync. by rewrite Hl, Hdb.
Qed.

Lemma exec_ProcessOldMessages w : exec ProcessOldMessages w = processOldMessages w.
Proof. reflexivity. Qed.

Lemma exec_in_sync_keeps op w w' :
  keeps_view op = true → (∀ entries, op ≠ Append entries) →
  engine_inv w → in_sync w → exec op w = Some w' → in_sync w'.
Proof.
  intros Hop Hna Hinv Hsync Hexec.
  destruct op; try discriminate Hop;
    [|cbn [exec] in Hexec|cbn [exec] in Hexec
     |rewrite exec_ProcessOldMessages in Hexec|cbn [exec] in Hexec..].
  - by destruct (Hna entries).
  - by injection Hexec as <-.
  - injection Hexec as <-. unfold in_sync.
    destruct Hinv as ([n Hv] & _). destruct (view_inv_cursors n _ Hv) as (_ & _ & Hlen).
    destruct (processNewMessages_frame w) as (-> & _).
    by rewrite (proj2 (processNewMessages_view _ Hlen)).
  - destruct Hinv as ([n Hv] & _).
    exact (in_sync_processOldMessages n w w' Hv Hsync Hexec).
  - unfold idle_timeout in Hexec. destruct (idle_callbacks w) as [|k] eqn:Hk.
    + by injection Hexec as <-.
    + destruct Hinv as ([n Hv] & _).
      apply (in_sync_processOldMessages n (with_idle_callbacks k w) w');
        [by apply (view_inv_same_state n w)|exact Hsync|exact Hexec].
  - injection Hexec as <-. unfold in_sync in *.
    by destruct (minTimeUpdated_state w) as (-> & _ & ->).
  - injection Hexec as <-. unfold in_sync in *.
    by destruct (setAbsoluteTime_state absolute w) as (-> & _ & ->).
  - injection Hexec as <-. unfold in_sync in *.
    by destruct (setDisplayTime_state display_flag w) as (-> & _ & ->).
Qed.

Lemma exec_in_sync_resets op w w' :
  keeps_view op = false → in_sync w → exec op w = Some w' → in_sync w'.
Proof.
  intros Hop Hsync Hexec.
  destruct op; try discriminate Hop; cbn [exec] in Hexec; injection Hexec as <-;
    try apply in_sync_reset.
  unfold setUseRegularExpressions. case_bool_decide; [done|apply in_sync_reset].
Qed.

Lemma append_in_sync entries w :
  engine_inv w →
  in_sync (processNewMessages (with_db (db_append entries (db_ w)) w)).
Proof.
  intros Hinv.
  destruct (exec_engine_inv (Append entries) w Hinv) as (wa & Ha & [n Hv] & _).
  cbn [exec] in Ha. injection Ha as <-.
  destruct (view_inv_cursors n _ Hv) as (_ & _ & Hlen).
  unfold in_sync.
  destruct (processNewMessages_frame (with_db (db_append entries (db_ w)) w))
    as (-> & _).
  by rewrite (proj2 (processNewMessages_view _ Hlen)).
Qed.

Lemma run_cons op ops w : run (op :: ops) w = exec op w ≫= run ops.
Proof. reflexivity. Qed.

Lemma run_single op w : run [op] w = exec op w.
Proof. rewrite run_cons. by destruct (exec op w). Qed.

Lemma connected_cases op :
  (∃ entries, op = Append entries) ∨ (∃ t, op = MoveMinTime t) ∨
  (connected op = [op] ∧ ∀ entries, op ≠ Append entries).
Proof.
  destruct op; try (right; right; split; [reflexivity|discriminate]).
  - left. by eexists.
  - right. left. by eexists.
Qed.

Lemma connected_in_sync op w :
  engine_inv w → in_sync w →
  ∃ w', run (connected op) w = Some w' ∧ engine_inv w' ∧ in_sync w'.
Proof.
  intros Hinv Hsync.
  destruct (run_engine_inv (connected op) w Hinv) as (w' & Hrun & Hinv').
  exists w'. split; [done|]. split; [done|].
  destruct (connected_cases op) as [[entries ->]|[[t ->]|[Hc Hna]]].
  - cbn [connected run exec mbind option_bind] in Hrun. injection Hrun as <-.
    by apply append_in_sync.
  - cbn [connected run exec mbind option_bind] in Hrun. injection Hrun as <-.
    unfold in_sync in *.
    match goal with |- context [minTimeUpdated ?x] =>
      destruct (minTimeUpdated_state x) as (-> & _ & ->) end.
    done.
  - rewrite Hc, run_single in Hrun.
    destruct (keeps_view op) eqn:Hop.
    + by apply (exec_in_sync_keeps op w).
    + by apply (exec_in_sync_resets op w).
Qed.

Lemma deliver_in_sync ops w :
  engine_inv w → in_sync w →
  ∃ w', run (deliver ops) w = Some w' ∧ engine_inv w' ∧ in_sync w'.
Proof.
  revert w. induction ops as [|op ops IH]; intros w Hinv Hsync.
  - by exists w.
  - destruct (connected_in_sync op w Hinv Hsync) as (w1 & Hrun1 & Hinv1 & Hsync1).
    destruct (IH w1 Hinv1 Hsync1) as (w2 & Hrun2 & ?).
    exists w2. split; [|done].
    unfold deliver. cbn [fmap list_fmap concat]. fold (deliver ops).
    by rewrite run_app, Hrun1.
Qed.

End Connected.

(** ** Forward extension invoked again *)

Section Repeated.
Context `{External}.
Implicit Types (w : World).

(** An operation that does not make the log longer leaves the forward
    cursor at its end. *)
Lemma exec_quiet_in_sync op w w' :
  grows_store op = false → engine_inv w → in_sync w → exec op w = Some w' →
  in_sync w'.
Proof.
  intros Hq Hinv Hsync Hexec.
  destruct (connected_cases op) as [[entries ->]|[[t ->]|[_ Hna]]].
  - destruct entries as [|entry entries]; [|discriminate Hq].
    cbn [exec] in Hexec. injection Hexec as <-.
    unfold in_sync in *. cbn. by rewrite app_nil_r.
  - apply (exec_in_sync_keeps (MoveMinTime t) w); done.
  - destruct (keeps_view op) eqn:Hop.
    + by apply (exec_in_sync_keeps op w).
    + by apply (exec_in_sync_resets op w).
Qed.

Lemma run_quiet_in_sync ops w :
  Forall (λ op, grows_store op = false) ops → engine_inv w → in_sync w →
  ∃ w', run ops w = Some w' ∧ engine_inv w' ∧ in_sync w'.
Proof.
  intros Hops. revert w. induction Hops as [|op ops Hop _ IH]; intros w Hinv Hsync.
  - by exists w.
  - destruct (exec_engine_inv op w Hinv) as (w1 & Hexec & Hinv1).
    destruct (IH w1 Hinv1) as (w2 & Hrun & ?).
    { by apply (exec_quiet_in_sync op w). }
    exists w2. split; [|done]. by rewrite run_cons, Hexec.
Qed.

Lemma processNewMessages_twice w :
  processNewMessages (processNewMessages w) = processNewMessages w.
Proof.
  apply processNewMessages_nothing_new.
  rewrite (proj1 (processNewMessages_frame w)). apply processNewMessages_cursor.
Qed.

End Repeated.

(** C9.  Invoked twice in a row, [processNewMessages] does the second time
    nothing at all, in every world: the view, both cursors and the signals
    emitted stay as the first invocation left them.  At any point after a
    reset, one invocation appends to the view the accepted positions from
    the forward cursor to the end of the log, each once and none left out,
    and moves the cursor to the end; the view has no position twice.  And
    after any operations that do not make the log longer (catch-up steps,
    idle callbacks, configuration changes, resets, clears) a further
    invocation again leaves the whole world as it is. *)
Theorem C9_processNewMessages_idempotent `{External}
    (w0 : World) (ops quiet : list Op) :
  Forall (λ op, grows_store op = false) quiet →
  (∀ w, processNewMessages (processNewMessages w) = processNewMessages w) ∧
  ∃ w w2,
    run ops (reset w0) = Some w ∧
    msg_mapping_ (view (processNewMessages w)) =
      msg_mapping_ (view w) ++
      accepted_range (config w) (log (db_ w)) (latest_index_ (view w))
        (length (log (db_ w))) ∧
    latest_index_ (view (processNewMessages w)) = length (log (db_ w)) ∧
    NoDup (msg_mapping_ (view (processNewMessages w))) ∧
    run quiet (processNewMessages w) = Some w2 ∧
    processNewMessages w2 = w2.
Proof.
  intros Hquiet. split; [apply processNewMessages_twice|].
  destruct (run_engine_inv ops (reset w0) (engine_inv_reset w0)) as (w & Hrun & Hinv).
  pose proof (engine_inv_processNewMessages w Hinv) as Hinv1.
  destruct Hinv as ([n Hv] & _).
  destruct (view_inv_cursors n w Hv) as (_ & _ & Hlen).
  destruct (processNewMessages_view w Hlen) as [Hmsg Hlatest].
  assert (in_sync (processNewMessages w)) as Hsync.
  { unfold in_sync. by rewrite Hlatest, (proj1 (processNewMessages_frame w)). }
  destruct (run_quiet_in_sync quiet _ Hquiet Hinv1 Hsync) as (w2 & Hrun2 & _ & Hsync2).
  exists w, w2. split; [done|]. split; [done|]. split; [done|]. split; [|split; [done|]].
  - destruct (view_inv_processNewMessages n w Hv) as (fl & _ & _ & _ & _ & _ & -> & _).
    apply accepted_range_NoDup.
  - apply processNewMessages_nothing_new. unfold in_sync in Hsync2. lia.
Qed.

(** Three records are in the database at the reset; four arrive, of which
    forward extension has seen two.  An invocation admits position 6; after
    an idle callback, which merges the backlog, a change of the time format
    and an empty announcement, another invocation changes nothing. *)
Lemma C9_processNewMessages_idempotent_witness :
  ∃ w w2,
    run (H := Example.external) Example.ops_forward (reset Example.backlog) = Some w ∧
    msg_mapping_ (view w) = [3] ∧
    msg_mapping_ (view (processNewMessages (H := Example.external) w)) = [3; 6] ∧
    run (H := Example.external) Example.ops_quiet
      (processNewMessages (H := Example.external) w) = Some w2 ∧
    msg_mapping_ (view w2) = [1; 2; 3; 6] ∧
    processNewMessages (H := Example.external) w2 = w2.
Proof.
  destruct (C9_processNewMessages_idempotent (H := Example.external) Example.backlog
              Example.ops_forward Example.ops_quiet)
    as (_ & w & w2 & Hrun & _ & _ & _ & Hquiet & Hsame).
  { repeat constructor. }
  exists w, w2. split; [exact Hrun|].
  vm_compute in Hrun. injection Hrun as <-.
  split; [reflexivity|]. split; [reflexivity|]. split; [exact Hquiet|].
  split; [|exact Hsame].
  vm_compute in Hquiet. injection Hquiet as <-. reflexivity.
Defined.

(** X7.  With the connections the constructor makes (the database's
    [messagesAdded] runs [processNewMessages], its [minTimeUpdated] runs
    the slot of that name), after any sequence of events following a reset
    the forward cursor is at the end of the log, and once the backward
    cursor is at zero the view is the ascending list of all accepted
    positions of the database. *)
Theorem X7_connected_view_in_sync `{External} (w0 : World) (ops : list Op) :
  ∃ w, run (deliver ops) (reset w0) = Some w ∧
       latest_index_ (view w) = length (log (db_ w)) ∧
       (earliest_index_ (view w) = 0 →
        msg_mapping_ (view w) =
          accepted_range (config w) (log (db_ w)) 0 (length (log (db_ w)))).
Proof.
  destruct (deliver_in_sync ops (reset w0) (engine_inv_reset w0) (in_sync_reset w0))
    as (w & Hrun & ([n Hv] & _) & Hsync).
  exists w. split; [done|]. split; [done|]. intros He.
  destruct (view_inv_complete n w Hv He) as [_ ->].
  destruct (view_inv_cursors n w Hv) as (_ & ? & ?).
  rewrite Hsync. symmetry. apply accepted_range_split; lia.
Qed.

Lemma X7_connected_view_in_sync_witness :
  ∃ w, run (H := Example.external) (deliver Example.events_catch_up)
         (reset Example.backlog) = Some w ∧
       msg_mapping_ (view w) = [1; 2; 3].
Proof.
  destruct (X7_connected_view_in_sync (H := Example.external) Example.backlog
              Example.events_catch_up) as (w & Hrun & _ & Hmsg).
  exists w. split; [exact Hrun|].
  vm_compute in Hrun. injection Hrun as <-.
  rewrite Hmsg; reflexivity.
Defined.

(** X8.  At every point after a reset, [data] is defined for every row of
    the view, and what it renders is a record of the database that the
    filter in force accepts: no row ever subscripts a deque out of range
    or shows a rejected record. *)
Theorem X8_rows_show_accepted_records `{External}
    (w0 : World) (ops : list Op) (idx : QModelIndex) (role : Z) :
  ∃ w, run ops (reset w0) = Some w ∧
    ((0 ≤ row idx < rowCount w QModelIndex_null)%Z →
     ∃ p item,
       msg_mapping_ (view w) !! Z.to_nat (row idx) = Some p ∧
       log (db_ w) !! p = Some item ∧
       acceptLogEntry (config w) item = true ∧
       data w idx role = Some (render w item role)).
Proof.
  destruct (run_engine_inv ops (reset w0) (engine_inv_reset w0))
    as (w & Hrun & [n Hv] & _).
  exists w. split; [done|]. intros Hrange.
  destruct (data_in_range w idx role Hrange) as (p & Hp & Hdata).
  pose proof (view_inv_accepted n w Hv) as Hacc.
  rewrite Forall_forall in Hacc.
  destruct (Hacc p) as (item & Hitem & Haccept).
  { by apply list_elem_of_lookup_2 with (Z.to_nat (row idx)). }
  exists p, item. rewrite Hdata, Hitem. done.
Qed.

Lemma X8_rows_show_accepted_records_witness :
  data (H := Example.external) Example.caught_up (index Example.caught_up 0) DisplayRole =
    Some (QVariant_QString "[W 0:00:00:500] Connection Timeout occurred").
Proof.
  destruct (X8_rows_show_accepted_records (H := Example.external) Example.backlog
              Example.ops_catch_up (index Example.caught_up 0) DisplayRole)
    as (w & Hrun & Hrow).
  assert (w = Example.caught_up) as ->.
  { vm_compute in Hrun. injection Hrun as <-. reflexivity. }
  destruct Hrow as (p & item & Hp & Hitem & _ & ->).
  { vm_compute. split; [intros Hc; discriminate Hc | reflexivity]. }
  vm_compute in Hp. injection Hp as <-.
  vm_compute in Hitem. injection Hitem as <-. reflexivity.
Defined.

(** ** Cosmetic changes and the [dataChanged] signal *)

Section Cosmetic.
Context `{External}.
Implicit Types (w : World).

Lemma data_ext w w2 idx role :
  msg_mapping_ (view w2) = msg_mapping_ (view w) →
  log (db_ w2) = log (db_ w) →
  (msg_mapping_ (view w) ≠ [] → ∀ item, render w2 item role = render w item role) →
  data w2 idx role = data w idx role.
Proof.
  intros Hmsg Hlog Hrender. unfold data. rewrite Hmsg, Hlog.
  destruct (_ && _); [done|].
  destruct (msg_mapping_ (view w) !! _) as [p|] eqn:Hp; [|done]. cbn.
  destruct (log (db_ w) !! p) as [item|]; [|done]. cbn.
  rewrite Hrender; [done|]. intros Hnil. by rewrite Hnil in Hp.
Qed.

Lemma render_without_time w w2 item role :
  display_time_ (display w) = false → display_time_ (display w2) = false →
  render w2 item role = render w item role.
Proof.
  intros Hd Hd2. unfold render, display_text. by rewrite Hd, Hd2.
Qed.

Lemma render_absolute_time w w2 item role :
  display w2 = display w → display_absolute_time_ (display w) = true →
  render w2 item role = render w item role.
Proof.
  intros Hd Ha. unfold render, display_text, stamp_text. by rewrite Hd, Ha.
Qed.

Lemma emitted_grows (l : list Signal) s : l ++ [s] ≠ l.
Proof.
  intros Heq. apply (f_equal length) in Heq. rewrite length_app in Heq. cbn in Heq. lia.
Qed.

Lemma minTimeUpdated_silent w t idx role :
  emitted (minTimeUpdated (with_db (db_setMinTime t (db_ w)) w)) = emitted w →
  data (minTimeUpdated (with_db (db_setMinTime t (db_ w)) w)) idx role =
    data w idx role.
Proof.
  unfold minTimeUpdated. cbn [display view with_db].
  destruct (display_time_ (display w)) eqn:Hd; cbn [andb].
  - destruct (display_absolute_time_ (display w)) eqn:Ha; cbn [andb negb].
    + intros _. apply data_ext; [done..|]. intros _ item.
      by apply render_absolute_time.
    + case_bool_decide as Hlen; cbn [negb].
      * intros _. apply data_ext; [done..|].
        intros Hne. by apply nil_length_inv in Hlen.
      * intros Hem. by apply emitted_grows in Hem.
  - intros _. apply data_ext; [done..|]. intros _ item.
    by apply render_without_time.
Qed.

Lemma setAbsoluteTime_silent b w idx role :
  emitted (setAbsoluteTime b w) = emitted w →
  data (setAbsoluteTime b w) idx role = data w idx role.
Proof.
  unfold setAbsoluteTime. case_bool_decide; [done|]. cbn [display view with_display].
  cbn [display_time_].
  destruct (display_time_ (display w)) eqn:Hd; cbn [andb].
  - case_bool_decide as Hlen; cbn [negb].
    + intros _. apply data_ext; [done..|].
      intros Hne. by apply nil_length_inv in Hlen.
    + intros Hem. by apply emitted_grows in Hem.
  - intros _. apply data_ext; [done..|]. intros _ item.
    by apply render_without_time.
Qed.

Lemma setDisplayTime_silent b w idx role :
  emitted (setDisplayTime b w) = emitted w →
  data (setDisplayTime b w) idx role = data w idx role.
Proof.
  unfold setDisplayTime. case_bool_decide; [done|]. cbn [display view with_display].
  case_bool_decide as Hlen; cbn [negb].
  - intros _. apply data_ext; [done..|].
    intros Hne. by apply nil_length_inv in Hlen.
  - intros Hem. by apply emitted_grows in Hem.
Qed.

End Cosmetic.

(** X9.  The cosmetic slots are sound in what they leave unsaid: when
    [minTimeUpdated] (after the database moved its origin time),
    [setAbsoluteTime] or [setDisplayTime] emits no signal, [data] returns
    for every index and role what it returned before. *)
Theorem X9_silent_cosmetic_change_keeps_rows `{External}
    (w : World) (t : Ros.Time) (b : bool) (idx : QModelIndex) (role : Z) :
  (emitted (minTimeUpdated (with_db (db_setMinTime t (db_ w)) w)) = emitted w →
   data (minTimeUpdated (with_db (db_setMinTime t (db_ w)) w)) idx role =
     data w idx role) ∧
  (emitted (setAbsoluteTime b w) = emitted w →
   data (setAbsoluteTime b w) idx role = data w idx role) ∧
  (emitted (setDisplayTime b w) = emitted w →
   data (setDisplayTime b w) idx role = data w idx role).
Proof.
  split; [apply minTimeUpdated_silent|].
  split; [apply setAbsoluteTime_silent|apply setDisplayTime_silent].
Qed.

Lemma X9_silent_cosmetic_change_keeps_rows_witness :
  data (H := Example.external) (setAbsoluteTime true Example.untimed)
    (index Example.untimed 1) DisplayRole =
  data (H := Example.external) Example.untimed (index Example.untimed 1) DisplayRole.
Proof.
  apply (proj1 (proj2 (X9_silent_cosmetic_change_keeps_rows (H := Example.external)
           Example.untimed Ros.TIME_MIN true (index Example.untimed 1) DisplayRole))).
  reflexivity.
Defined.

(** ** Insert notifications *)

Section Notifications.
Context `{External}.
Implicit Types (w : World).

Lemma rowCount_fits w :
  (Z.of_nat (length (msg_mapping_ (view w))) ≤ CInt.INT_MAX)%Z →
  rowCount w QModelIndex_null = Z.of_nat (length (msg_mapping_ (view w))).
Proof. intros Hfits. unfold rowCount. cbn. apply to_int_small. lia. Qed.

Lemma processNewMessages_signals w :
  ∃ new_items,
    msg_mapping_ (view (processNewMessages w)) = msg_mapping_ (view w) ++ new_items ∧
    emitted (processNewMessages w) =
      emitted w ++
      (if bool_decide (new_items = []) then []
       else insert_signals
              (CInt.to_int (Z.of_nat (length (msg_mapping_ (view w)))))
              (CInt.to_int (Z.of_nat (length (msg_mapping_ (view w)) +
                                      length new_items - 1)))).
Proof.
  unfold processNewMessages.
  destruct (new_loop _ _ _ _ _) as [latest new_items].
  exists new_items. case_bool_decide as Hnil; cbn.
  - by rewrite Hnil, !app_nil_r.
  - by rewrite <- app_assoc.
Qed.

Lemma processOldMessages_emitted w :
  earliest_index_ (view w) ≤ length (log (db_ w)) →
  let earliest := earliest_index_ (view w) - 100 `min` earliest_index_ (view w) in
  let early :=
    accepted_range (config w) (log (db_ w)) earliest (earliest_index_ (view w))
    ++ early_mapping_ (view w) in
  ∃ w', processOldMessages w = Some w' ∧
    emitted w' =
      emitted w ++
      (if flushes earliest early
       then insert_signals 0 (CInt.to_int (Z.of_nat (length early - 1)))
       else []).
Proof.
  intros Hle earliest early. unfold processOldMessages.
  rewrite old_loop_spec by done. cbn [mbind option_bind].
  fold earliest. fold early.
  eexists. split; [reflexivity|].
  match goal with |- context [scheduleIdleProcessing ?x] =>
    destruct (scheduleIdleProcessing_frame x) as (_ & _ & _ & _ & ->)
  end.
  destruct (flushes earliest early); cbn; [by rewrite <- app_assoc|by rewrite app_nil_r].
Qed.

End Notifications.

(** X10.  [processNewMessages] only ever appends to the view: the rows
    already there keep their positions.  It emits the insertion signals
    exactly when the view grows, and then (row counts fitting an [int])
    they announce the rows from the old [rowCount()] to the new
    [rowCount() - 1]; otherwise it emits nothing. *)
Theorem X10_forward_insert_notification `{External} (w : World) :
  (Z.of_nat (length (msg_mapping_ (view (processNewMessages w)))) ≤ CInt.INT_MAX)%Z →
  msg_mapping_ (view w) `prefix_of` msg_mapping_ (view (processNewMessages w)) ∧
  emitted (processNewMessages w) =
    emitted w ++
    (if (rowCount (processNewMessages w) QModelIndex_null =?
         rowCount w QModelIndex_null)%Z
     then []
     else insert_signals (rowCount w QModelIndex_null)
            (rowCount (processNewMessages w) QModelIndex_null - 1)).
Proof.
  intros Hfits.
  destruct (processNewMessages_signals w) as (new_items & Hmsg & Hem).
  split; [rewrite Hmsg; by apply prefix_app_r|].
  rewrite Hmsg, length_app in Hfits.
  rewrite !rowCount_fits by (rewrite ?Hmsg, ?length_app; lia).
  rewrite Hem, Hmsg, length_app.
  case_bool_decide as Hnil.
  - rewrite Hnil. cbn [length]. rewrite Nat.add_0_r, Z.eqb_refl. done.
  - assert (length new_items ≠ 0) by (by intros ?%nil_length_inv).
    rewrite (proj2 (Z.eqb_neq _ _)) by lia.
    rewrite !to_int_small by (unfold CInt.INT_MAX in *; lia).
    do 2 f_equal. lia.
Qed.

Lemma X10_forward_insert_notification_witness :
  emitted (processNewMessages (H := Example.external)
             (with_db (db_append [Example.entry Ros.ERROR "A" "late"]
                         (db_ Example.caught_up)) Example.caught_up)) =
    emitted Example.caught_up ++ insert_signals 3 3.
Proof.
  destruct (X10_forward_insert_notification (H := Example.external)
              (with_db (db_append [Example.entry Ros.ERROR "A" "late"]
                          (db_ Example.caught_up)) Example.caught_up))
    as [_ ->].
  - vm_compute. intros Hc. discriminate Hc.
  - reflexivity.
Defined.

(** X11.  [processOldMessages] only ever prepends to the view: the rows
    already there keep their order at its end.  It emits the insertion
    signals exactly when the view grows, and then (row counts fitting an
    [int]) they announce the rows from 0 to the number of new rows minus
    one; otherwise it emits nothing. *)
Theorem X11_backward_insert_notification `{External} (w : World) :
  earliest_index_ (view w) ≤ length (log (db_ w)) →
  ∃ w', processOldMessages w = Some w' ∧
    msg_mapping_ (view w) `suffix_of` msg_mapping_ (view w') ∧
    ((Z.of_nat (length (msg_mapping_ (view w'))) ≤ CInt.INT_MAX)%Z →
     emitted w' =
       emitted w ++
       (if (rowCount w' QModelIndex_null =? rowCount w QModelIndex_null)%Z
        then []
        else insert_signals 0
               (rowCount w' QModelIndex_null - rowCount w QModelIndex_null - 1))).
Proof.
  intros Hle.
  destruct (processOldMessages_spec w Hle) as (w' & Hrun & _ & _ & _ & _ & _ & Hm & _).
  exists w'. split; [done|].
  set (e' := earliest_index_ (view w) - 100 `min` earliest_index_ (view w)) in *.
  set (early := accepted_range (config w) (log (db_ w)) e' (earliest_index_ (view w))
                ++ early_mapping_ (view w)) in *.
  destruct (processOldMessages_emitted w Hle) as (w'' & Hrun' & Hem).
  rewrite Hrun in Hrun'. injection Hrun' as <-.
  fold e' early in Hem.
  split.
  { rewrite Hm. destruct (flushes e' early); [by apply suffix_app_r|done]. }
  intros Hfits. rewrite Hm in Hfits.
  rewrite !rowCount_fits by (rewrite ?Hm; destruct (flushes e' early);
                             rewrite ?length_app in *; lia).
  rewrite Hem, Hm.
  destruct (flushes e' early) eqn:Hfl.
  - assert (length early ≠ 0) as Hne.
    { unfold flushes in Hfl. apply orb_true_iff in Hfl as [Hfl|Hfl].
      - apply andb_true_iff in Hfl as [_ Hfl].
        by apply negb_true_iff, bool_decide_eq_false_1 in Hfl.
      - apply bool_decide_eq_true_1 in Hfl. lia. }
    rewrite length_app in *.
    rewrite (proj2 (Z.eqb_neq _ _)) by lia.
    rewrite to_int_small by (unfold CInt.INT_MAX in *; lia).
    do 2 f_equal. lia.
  - by rewrite Z.eqb_refl.
Qed.

Lemma X11_backward_insert_notification_witness :
  ∃ w', processOldMessages (H := Example.external) (reset Example.backlog) = Some w' ∧
        emitted w' = emitted (reset Example.backlog) ++ insert_signals 0 1.
Proof.
  destruct (X11_backward_insert_notification (H := Example.external)
              (reset Example.backlog)) as (w' & Hrun & _ & Hem).
  { vm_compute. lia. }
  exists w'. split; [exact Hrun|].
  vm_compute in Hrun. injection Hrun as <-.
  rewrite Hem; [reflexivity|]. vm_compute. intros Hc. discriminate Hc.
Defined.

(** ** Pattern validity and the mode flag *)

Section Validity.
Context `{External}.
Implicit Types (w : World).

Lemma config_reset w : config (reset w) = config w.
Proof. by destruct (reset_frame w) as (_ & -> & _). Qed.

Lemma isExcludeValid_spec w :
  isExcludeValid w =
    negb (use_regular_expressions_ (config w)) ||
    QRegExp_compiles (pattern (exclude_regexp_ (config w))).
Proof.
  unfold isExcludeValid, isValid.
  destruct (use_regular_expressions_ (config w)); [|done].
  by destruct (QRegExp_compiles _).
Qed.

Lemma isIncludeValid_spec w :
  isIncludeValid w =
    negb (use_regular_expressions_ (config w)) ||
    QRegExp_compiles (pattern (include_regexp_ (config w))).
Proof.
  unfold isIncludeValid, isValid.
  destruct (use_regular_expressions_ (config w)); [|done].
  by destruct (QRegExp_compiles _).
Qed.

Lemma config_setExcludeRegexpPattern p w :
  use_regular_expressions_ (config (setExcludeRegexpPattern p w)) =
    use_regular_expressions_ (config w) ∧
  pattern (exclude_regexp_ (config (setExcludeRegexpPattern p w))) = p ∧
  include_regexp_ (config (setExcludeRegexpPattern p w)) = include_regexp_ (config w).
Proof. unfold setExcludeRegexpPattern. by rewrite config_reset. Qed.

Lemma config_setIncludeRegexpPattern p w :
  use_regular_expressions_ (config (setIncludeRegexpPattern p w)) =
    use_regular_expressions_ (config w) ∧
  pattern (include_regexp_ (config (setIncludeRegexpPattern p w))) = p ∧
  exclude_regexp_ (config (setIncludeRegexpPattern p w)) = exclude_regexp_ (config w).
Proof. unfold setIncludeRegexpPattern. by rewrite config_reset. Qed.

Lemma config_setUseRegularExpressions b w :
  use_regular_expressions_ (config (setUseRegularExpressions b w)) = b ∧
  exclude_regexp_ (config (setUseRegularExpressions b w)) = exclude_regexp_ (config w) ∧
  include_regexp_ (config (setUseRegularExpressions b w)) = include_regexp_ (config w).
Proof.
  unfold setUseRegularExpressions. case_bool_decide as Hb; [by rewrite Hb|].
  by rewrite config_reset.
Qed.

End Validity.

(** X12.  The validity queries look at a pattern only in pattern mode.
    After [setExcludeRegexpPattern p], [isExcludeValid] is true exactly when
    text mode is on or [p] is well formed, and [isIncludeValid] is what it
    was; the same holds with include and exclude swapped.  In text mode
    both queries are true whatever the patterns, and a pattern set in text
    mode decides [isExcludeValid] once pattern mode is switched on. *)
Theorem X12_pattern_validity `{External} (p : string) (w : World) :
  isExcludeValid (setExcludeRegexpPattern p w) =
    negb (use_regular_expressions_ (config w)) || QRegExp_compiles p ∧
  isIncludeValid (setExcludeRegexpPattern p w) = isIncludeValid w ∧
  isIncludeValid (setIncludeRegexpPattern p w) =
    negb (use_regular_expressions_ (config w)) || QRegExp_compiles p ∧
  isExcludeValid (setIncludeRegexpPattern p w) = isExcludeValid w ∧
  (use_regular_expressions_ (config w) = false →
   isIncludeValid w = true ∧ isExcludeValid w = true ∧
   isExcludeValid (setUseRegularExpressions true (setExcludeRegexpPattern p w)) =
     QRegExp_compiles p).
Proof.
  destruct (config_setExcludeRegexpPattern p w) as (Hre & Hex & Hin).
  destruct (config_setIncludeRegexpPattern p w) as (Hre' & Hin' & Hex').
  rewrite !isExcludeValid_spec, !isIncludeValid_spec.
  rewrite Hre, Hex, Hin, Hre', Hin', Hex'.
  split; [done|]. split; [done|]. split; [done|]. split; [done|].
  intros Htext. rewrite Htext. split; [done|]. split; [done|].
  destruct (config_setUseRegularExpressions true (setExcludeRegexpPattern p w))
    as (-> & -> & _).
  by rewrite Hex.
Qed.

Lemma X12_pattern_validity_witness :
  isExcludeValid (H := Example.external)
    (setUseRegularExpressions true (setExcludeRegexpPattern "(" Example.caught_up)) = false.
Proof.
  destruct (X12_pattern_validity (H := Example.external) "(" Example.caught_up)
    as (_ & _ & _ & _ & Htext).
  destruct Htext as (_ & _ & ->); reflexivity.
Defined.

(** ** The filter predicate: what it ignores and what can only help *)

Section PredicateFacts.
Context `{External}.
Implicit Types (f : FilterConfig) (item : LogEntry).

Lemma acceptLogEntry_accept_spec f item :
  acceptLogEntry f item = true ↔ accept_spec f item.
Proof.
  pose proof (acceptLogEntry_verdict_first_failure f item) as Hv.
  unfold acceptLogEntry.
  destruct (acceptLogEntry_verdict f item); cbn in Hv; split; try done;
    intros (? & ? & ? & ?); exfalso; tauto.
Qed.

End PredicateFacts.

(** X13.  The mode flag selects which rules a record is tested against:
    in pattern mode the include and exclude string lists play no part in
    [acceptLogEntry], and in text mode the two patterns play none. *)
Theorem X13_mode_selects_rules `{External} (f f' : FilterConfig) (item : LogEntry) :
  names_ f' = names_ f → severity_mask_ f' = severity_mask_ f →
  use_regular_expressions_ f' = use_regular_expressions_ f →
  (use_regular_expressions_ f = true →
   include_regexp_ f' = include_regexp_ f ∧ exclude_regexp_ f' = exclude_regexp_ f) →
  (use_regular_expressions_ f = false →
   include_strings_ f' = include_strings_ f ∧ exclude_strings_ f' = exclude_strings_ f) →
  acceptLogEntry f' item = acceptLogEntry f item.
Proof.
  intros Hn Hs Hm Hre Htext.
  unfold acceptLogEntry, acceptLogEntry_verdict, testIncludeFilter.
  rewrite Hn, Hs, Hm.
  destruct (use_regular_expressions_ f).
  - destruct Hre as [-> ->]; done.
  - destruct Htext as [-> ->]; done.
Qed.

Lemma X13_mode_selects_rules_witness :
  acceptLogEntry (H := Example.external) (Example.filter_patterns ["never"] ["Timeout"])
    (Example.entry Ros.WARN "A" "Connection Timeout occurred") =
  acceptLogEntry (H := Example.external) (Example.filter_patterns [] [])
    (Example.entry Ros.WARN "A" "Connection Timeout occurred").
Proof.
  apply (X13_mode_selects_rules (H := Example.external));
    try reflexivity; [by intros _ | intros Hc; discriminate Hc].
Defined.

(** X14.  Widening what the filter lets through never hides a record, and
    narrowing never shows one: a record accepted in text mode stays accepted
    when names are added to the set of accepted names, and a record
    accepted under a longer exclude list is accepted under every shorter
    one. *)
Theorem X14_filter_monotone `{External} (f f' : FilterConfig) (item : LogEntry) :
  use_regular_expressions_ f = false → use_regular_expressions_ f' = false →
  severity_mask_ f' = severity_mask_ f →
  include_strings_ f' = include_strings_ f →
  names_ f ⊆ names_ f' →
  exclude_strings_ f' ⊆ exclude_strings_ f →
  acceptLogEntry f item = true → acceptLogEntry f' item = true.
Proof.
  intros Hm Hm' Hs Hi Hn He.
  rewrite !acceptLogEntry_accept_spec.
  unfold accept_spec, severity_selected, source_selected, include_rule, exclude_rule.
  rewrite Hm, Hm', Hs, Hi.
  intros (Hsev & Hsrc & Hinc & Hexc). repeat split; try done.
  - by apply Hn.
  - intros s Hs'. apply Hexc. by apply He.
Qed.

Lemma X14_filter_monotone_witness :
  acceptLogEntry (H := Example.external) (Example.filter_text {[ "A"; "B" ]} ["good"])
    (Example.entry Ros.WARN "A" "Connection Timeout occurred") = true.
Proof.
  apply (X14_filter_monotone (H := Example.external)
           (Example.filter_text {[ "A" ]} ["good"; "bad"])
           (Example.filter_text {[ "A"; "B" ]} ["good"]));
    try reflexivity.
  - refine (bool_decide_unpack _ _). vm_compute. exact I.
  - refine (bool_decide_unpack _ _). vm_compute. exact I.
Defined.

(** ** Export of reachable worlds *)

Section ExportReachable.
Context `{External}.
Implicit Types (w : World).

Lemma view_inv_in_store n w :
  view_inv n w → Forall (λ p, p < length (log (db_ w))) (msg_mapping_ (view w)).
Proof.
  intros Hv. eapply Forall_impl; [by apply (view_inv_accepted n)|].
  intros p (item & Hitem & _). by apply lookup_lt_Some in Hitem.
Qed.

Lemma bag_loop_spec clock k rest records warnings :
  bag_loop clock k rest records warnings =
    (records ++ imap (λ j item, (bag_record (clock (k + j)) item).1) rest,
     warnings ++ concat (imap (λ j item, (bag_record (clock (k + j)) item).2) rest)).
Proof.
  revert k records warnings.
  induction rest as [|item rest IH]; intros k records warnings;
    cbn [bag_loop imap concat].
  - by rewrite !app_nil_r.
  - rewrite Nat.add_0_r.
    destruct (bag_record (clock k) item) as [r ws] eqn:Hr.
    rewrite IH, <- !app_assoc. cbn [fst snd app].
    rewrite (imap_ext (λ j x, (bag_record (clock (S k + j)) x).1)
               ((λ j x, (bag_record (clock (k + j)) x).1) ∘ S) rest).
    2:{ intros j x _. cbn [compose]. by replace (S k + j) with (k + S j) by lia. }
    rewrite (imap_ext (λ j x, (bag_record (clock (S k + j)) x).2)
               ((λ j x, (bag_record (clock (k + j)) x).2) ∘ S) rest).
    2:{ intros j x _. cbn [compose]. by replace (S k + j) with (k + S j) by lia. }
    done.
Qed.

Lemma concat_imap_length {A B} (P : A → bool) (f : nat → A → list B) (l : list A) :
  (∀ j x, length (f j x) = if P x then 1 else 0) →
  length (concat (imap f l)) = length (List.filter P l).
Proof.
  revert f. induction l as [|x l IH]; intros f Hf; [done|].
  cbn [imap concat List.filter]. rewrite length_app, Hf, IH.
  - by destruct (P x).
  - intros j y. apply Hf.
Qed.

End ExportReachable.

(** X15.  At every point after a reset, if the view fits the [int] loop
    counter, [saveToFile] succeeds: for a name ending in ".bag" it is the
    bag export, and for any other name it writes, in the order of the view,
    one rendered line per row. *)
Theorem X15_saveToFile_reachable `{External}
    (w0 : World) (ops : list Op) (clock : nat → Ros.Time) (filename : string) :
  ∃ w, run ops (reset w0) = Some w ∧
    ((Z.of_nat (length (msg_mapping_ (view w))) ≤ CInt.INT_MAX)%Z →
     saveToFile clock filename w =
       Some (if QString_endsWith filename ".bag"%string then saveBagFile clock w
             else TextFile (text_rows w (msg_mapping_ (view w))))).
Proof.
  destruct (run_engine_inv ops (reset w0) (engine_inv_reset w0))
    as (w & Hrun & [n Hv] & _).
  exists w. split; [done|]. intros Hfits. unfold saveToFile.
  destruct (QString_endsWith filename ".bag"); [done|].
  apply saveTextFile_rows; [done|]. by apply (view_inv_in_store n).
Qed.

Lemma X15_saveToFile_reachable_witness :
  saveToFile (H := Example.external) (λ _, Ros.TIME_MIN) "console.txt"%string
    Example.caught_up =
  Some (TextFile (text_rows (H := Example.external) Example.caught_up [1; 2; 3])).
Proof.
  destruct (X15_saveToFile_reachable (H := Example.external) Example.backlog
              Example.ops_catch_up (λ _, Ros.TIME_MIN) "console.txt"%string)
    as (w & Hrun & Hsave).
  assert (w = Example.caught_up) as ->.
  { vm_compute in Hrun. injection Hrun as <-. reflexivity. }
  rewrite Hsave; [reflexivity|]. vm_compute. intros Hc. discriminate Hc.
Defined.

(** X16.  [saveBagFile] writes one record per record of the database, in
    order and on the topic "/rosout"; a record keeps its own time stamp
    unless that is below [ros::TIME_MIN], in which case the current time is
    written in its place and one warning is logged.  So, with a clock that
    returns valid times, no record is written with a time below
    [ros::TIME_MIN], and the header stamp always equals the time the record
    is written at. *)
Theorem X16_saveBagFile_times `{External} (clock : nat → Ros.Time) (w : World) :
  (∀ k, Ros.Time_lt (clock k) Ros.TIME_MIN = false) →
  ∃ records warnings,
    saveBagFile clock w = BagFile records warnings ∧
    length records = length (log (db_ w)) ∧
    (∀ i item, log (db_ w) !! i = Some item →
       ∃ r, records !! i = Some r ∧
            Ros.log_msg (bag_message r) = msg item ∧
            bag_time r = (if Ros.Time_lt (stamp item) Ros.TIME_MIN
                          then clock i else stamp item)) ∧
    Forall (λ r, Ros.Time_lt (bag_time r) Ros.TIME_MIN = false ∧
                 Ros.header_stamp (bag_message r) = bag_time r ∧
                 bag_topic r = "/rosout"%string) records ∧
    length warnings =
      length (List.filter (λ item, Ros.Time_lt (stamp item) Ros.TIME_MIN)
                (log (db_ w))).
Proof.
  intros Hclock. unfold saveBagFile. rewrite bag_loop_spec. cbn [app].
  eexists _, _. split; [reflexivity|]. split; [by rewrite length_imap|].
  split; [|split].
  - intros i item Hitem. rewrite list_lookup_imap, Hitem. cbn.
    eexists. split; [reflexivity|]. done.
  - apply Forall_forall. intros r Hr.
    apply list_elem_of_lookup in Hr as [i Hr].
    rewrite list_lookup_imap in Hr.
    destruct (log (db_ w) !! i) as [item|]; [|done].
    cbn in Hr. injection Hr as <-. cbn.
    destruct (Ros.Time_lt (stamp item) Ros.TIME_MIN) eqn:Hlt; [|done].
    by rewrite Hclock.
  - apply concat_imap_length. intros j item. cbn.
    by destruct (Ros.Time_lt (stamp item) Ros.TIME_MIN).
Qed.

Lemma X16_saveBagFile_times_witness :
  ∃ records warnings,
    saveBagFile (λ _, Ros.TIME_MIN) Example.caught_up = BagFile records warnings ∧
    length records = 4 ∧ length warnings = 0.
Proof.
  destruct (X16_saveBagFile_times (H := Example.external) (λ _, Ros.TIME_MIN)
              Example.caught_up) as (records & warnings & Hsave & Hlen & _ & _ & Hw).
  { reflexivity. }
  exists records, warnings. split; [exact Hsave|]. split.
  - rewrite Hlen. reflexivity.
  - rewrite Hw. reflexivity.
Defined.

(** ** Changing the filter and rebuilding the view *)

Section Refilter.
Context `{External}.
Implicit Types (w : World).

Lemma rebuild_after_reset k w :
  batches (length (log (db_ w))) ≤ k →
  ∃ w', run (replicate k ProcessOldMessages ++ [ProcessNewMessages]) (reset w) = Some w' ∧
        msg_mapping_ (view w') =
          accepted_range (config w) (log (db_ w)) 0 (length (log (db_ w))) ∧
        db_ w' = db_ w ∧ config w' = config w.
Proof.
  intros Hk.
  destruct (rebuild_converges k (reset w) (engine_inv_reset w)) as
    (w' & Hrun & Hmsg & _ & Hdb & Hcfg).
  { by rewrite reset_view. }
  destruct (reset_frame w) as (Hdb0 & Hcfg0 & _).
  rewrite Hdb0, Hcfg0 in *. by exists w'.
Qed.

Lemma accepted_range_all f lg p :
  p ∈ accepted_range f lg 0 (length lg) ↔
  ∃ item, lg !! p = Some item ∧ acceptLogEntry f item = true.
Proof.
  rewrite elem_of_accepted_range. split.
  - intros [_ Hp]. by apply passes_true_lookup.
  - intros (item & Hitem & Hacc). split.
    + apply lookup_lt_Some in Hitem. lia.
    + unfold passes. by rewrite Hitem.
Qed.

End Refilter.

(** X17.  After [setNodeFilter names] (on any world) and a complete
    rebuild, the view holds exactly the positions of the records that the
    filter with the new set of names accepts; in particular every row comes
    from a node in [names].  Likewise after [setSeverityFilter mask] every
    row has a severity bit in common with [mask]. *)
Theorem X17_rebuilt_rows_match_new_selection `{External}
    (w : World) (names : gset string) (mask : Z) (k : nat) :
  batches (length (log (db_ w))) ≤ k →
  (∃ w', run (replicate k ProcessOldMessages ++ [ProcessNewMessages])
           (setNodeFilter names w) = Some w' ∧
         (∀ p, p ∈ msg_mapping_ (view w') ↔
               ∃ item, log (db_ w) !! p = Some item ∧
                       acceptLogEntry (config (setNodeFilter names w)) item = true) ∧
         Forall (λ p, ∃ item, log (db_ w) !! p = Some item ∧ node item ∈ names)
           (msg_mapping_ (view w'))) ∧
  (∃ w', run (replicate k ProcessOldMessages ++ [ProcessNewMessages])
           (setSeverityFilter mask w) = Some w' ∧
         (∀ p, p ∈ msg_mapping_ (view w') ↔
               ∃ item, log (db_ w) !! p = Some item ∧
                       acceptLogEntry (config (setSeverityFilter mask w)) item = true) ∧
         Forall (λ p, ∃ item, log (db_ w) !! p = Some item ∧
                              Z.land (level item) mask ≠ 0%Z)
           (msg_mapping_ (view w'))).
Proof.
  intros Hk. split.
  - unfold setNodeFilter at 1.
    match goal with |- context [run _ (reset ?x)] =>
      destruct (rebuild_after_reset k x Hk) as (w' & Hrun & Hmsg & _) end.
    cbn [db_ config with_config] in Hmsg.
    exists w'. split; [done|].
    assert (config (setNodeFilter names w) =
            {| names_ := names; severity_mask_ := severity_mask_ (config w);
               use_regular_expressions_ := use_regular_expressions_ (config w);
               include_strings_ := include_strings_ (config w);
               exclude_strings_ := exclude_strings_ (config w);
               include_regexp_ := include_regexp_ (config w);
               exclude_regexp_ := exclude_regexp_ (config w) |}) as ->.
    { unfold setNodeFilter. by rewrite config_reset. }
    split.
    + intros p. rewrite Hmsg. apply accepted_range_all.
    + apply Forall_forall. intros p Hp. rewrite Hmsg in Hp.
      apply accepted_range_all in Hp as (item & Hitem & Hacc).
      exists item. split; [done|].
      apply acceptLogEntry_accept_spec in Hacc as (_ & Hsrc & _). done.
  - unfold setSeverityFilter at 1.
    match goal with |- context [run _ (reset ?x)] =>
      destruct (rebuild_after_reset k x Hk) as (w' & Hrun & Hmsg & _) end.
    cbn [db_ config with_config] in Hmsg.
    exists w'. split; [done|].
    assert (config (setSeverityFilter mask w) =
            {| names_ := names_ (config w); severity_mask_ := mask;
               use_regular_expressions_ := use_regular_expressions_ (config w);
               include_strings_ := include_strings_ (config w);
               exclude_strings_ := exclude_strings_ (config w);
               include_regexp_ := include_regexp_ (config w);
               exclude_regexp_ := exclude_regexp_ (config w) |}) as ->.
    { unfold setSeverityFilter. by rewrite config_reset. }
    split.
    + intros p. rewrite Hmsg. apply accepted_range_all.
    + apply Forall_forall. intros p Hp. rewrite Hmsg in Hp.
      apply accepted_range_all in Hp as (item & Hitem & Hacc).
      exists item. split; [done|].
      apply acceptLogEntry_accept_spec in Hacc as (Hsev & _).
      by apply severity_selected_iff in Hsev.
Qed.

Lemma X17_rebuilt_rows_match_new_selection_witness :
  ∃ w', run (H := Example.external)
          (replicate 1 ProcessOldMessages ++ [ProcessNewMessages])
          (setSeverityFilter Ros.INFO Example.caught_up) = Some w' ∧
        msg_mapping_ (view w') = [0].
Proof.
  destruct (X17_rebuilt_rows_match_new_selection (H := Example.external)
              Example.caught_up ∅ Ros.INFO 1) as (_ & w' & Hrun & _ & _).
  { vm_compute. lia. }
  exists w'. split; [exact Hrun|].
  vm_compute in Hrun. injection Hrun as <-. reflexivity.
Defined.

(** X18.  In text mode, after [setExcludeFilters excludes] and a complete
    rebuild no row's message contains one of the strings of [excludes];
    after [setIncludeFilters includes] and a complete rebuild every row's
    message contains one of the strings of [includes], unless [includes] is
    empty. *)
Theorem X18_rebuilt_rows_match_text_rules `{External}
    (w : World) (includes excludes : list string) (k : nat) :
  use_regular_expressions_ (config w) = false →
  batches (length (log (db_ w))) ≤ k →
  (∃ w', run (replicate k ProcessOldMessages ++ [ProcessNewMessages])
           (setIncludeFilters includes w) = Some w' ∧
         Forall (λ p, ∃ item, log (db_ w) !! p = Some item ∧
                  (includes = [] ∨
                   ∃ s, s ∈ includes ∧ QString_contains (msg item) s = true))
           (msg_mapping_ (view w'))) ∧
  (∃ w', run (replicate k ProcessOldMessages ++ [ProcessNewMessages])
           (setExcludeFilters excludes w) = Some w' ∧
         Forall (λ p, ∃ item, log (db_ w) !! p = Some item ∧
                  ∀ s, s ∈ excludes → QString_contains (msg item) s = false)
           (msg_mapping_ (view w'))).
Proof.
  intros Htext Hk. split.
  - unfold setIncludeFilters.
    match goal with |- context [run _ (reset ?x)] =>
      destruct (rebuild_after_reset k x Hk) as (w' & Hrun & Hmsg & _) end.
    cbn [db_ config with_config] in Hmsg.
    exists w'. split; [done|].
    apply Forall_forall. intros p Hp. rewrite Hmsg in Hp.
    apply accepted_range_all in Hp as (item & Hitem & Hacc).
    exists item. split; [done|].
    apply acceptLogEntry_accept_spec in Hacc as (_ & _ & Hinc & _).
    unfold include_rule in Hinc. cbn in Hinc. by rewrite Htext in Hinc.
  - unfold setExcludeFilters.
    match goal with |- context [run _ (reset ?x)] =>
      destruct (rebuild_after_reset k x Hk) as (w' & Hrun & Hmsg & _) end.
    cbn [db_ config with_config] in Hmsg.
    exists w'. split; [done|].
    apply Forall_forall. intros p Hp. rewrite Hmsg in Hp.
    apply accepted_range_all in Hp as (item & Hitem & Hacc).
    exists item. split; [done|].
    apply acceptLogEntry_accept_spec in Hacc as (_ & _ & _ & Hexc).
    unfold exclude_rule in Hexc. cbn in Hexc. by rewrite Htext in Hexc.
Qed.

Lemma X18_rebuilt_rows_match_text_rules_witness :
  ∃ w', run (H := Example.external)
          (replicate 1 ProcessOldMessages ++ [ProcessNewMessages])
          (setExcludeFilters ["timeout"%string] Example.caught_up) = Some w' ∧
        msg_mapping_ (view w') = [2; 3].
Proof.
  destruct (X18_rebuilt_rows_match_text_rules (H := Example.external)
              Example.caught_up [] ["timeout"%string] 1) as (_ & w' & Hrun & _).
  { reflexivity. }
  { vm_compute. lia. }
  exists w'. split; [exact Hrun|].
  vm_compute in Hrun. injection Hrun as <-. reflexivity.
Defined.

(** ** Coalescing of the catch-up notifications *)

Section Coalescing.
Context `{External}.
Implicit Types (w : World).

(** While at most 200 accepted positions are still to be delivered, a run
    of catch-up steps delivers them in one insertion, at the step that
    brings the backward cursor to zero. *)
Lemma catch_up_quiet k n w :
  earliest_index_ (view w) ≤ n → n ≤ length (log (db_ w)) →
  early_mapping_ (view w) =
    accepted_range (config w) (log (db_ w)) (earliest_index_ (view w)) n →
  (earliest_index_ (view w) = 0 → early_mapping_ (view w) = []) →
  length (accepted_range (config w) (log (db_ w)) 0 n) ≤ 200 →
  batches (earliest_index_ (view w)) ≤ k →
  let pending :=
    accepted_range (config w) (log (db_ w)) 0 (earliest_index_ (view w))
    ++ early_mapping_ (view w) in
  ∃ w', catch_up k w = Some w' ∧
        msg_mapping_ (view w') = pending ++ msg_mapping_ (view w) ∧
        emitted w' =
          emitted w ++
          (if bool_decide (pending = []) then []
           else insert_signals 0 (CInt.to_int (Z.of_nat (length pending - 1)))).
Proof.
  revert n w. induction k as [|k IH]; intros n w Hen Hn Hearly Hzero Hfew Hk pending;
    subst pending.
  - apply batches_le in Hk.
    assert (earliest_index_ (view w) = 0) as He by lia.
    rewrite He, (Hzero He), accepted_range_empty by lia.
    exists w. cbn [catch_up app]. by rewrite app_nil_r.
  - destruct (decide (earliest_index_ (view w) = 0)) as [He|Hpos].
    + cbn [catch_up]. rewrite (processOldMessages_done w He (Hzero He)).
      cbn [mbind option_bind].
      apply (IH n w); try done.
      rewrite He. apply batches_le. lia.
    + destruct (processOldMessages_spec w) as
        (w1 & Hrun & Hdb & Hcfg & _ & He1 & _ & Hm1 & Hp1 & _); [lia|].
      destruct (processOldMessages_emitted w) as (w1' & Hrun' & Hem1); [lia|].
      rewrite Hrun in Hrun'. injection Hrun' as <-.
      set (e1 := earliest_index_ (view w) - 100 `min` earliest_index_ (view w)) in *.
      rewrite Hearly, <- accepted_range_split in Hm1, Hp1, Hem1 by lia.
      rewrite Hearly, <- accepted_range_split by lia.
      assert (length (accepted_range (config w) (log (db_ w)) e1 n) ≤ 200) as Hsub.
      { rewrite (accepted_range_split _ _ 0 e1 n), length_app in Hfew by lia. lia. }
      assert (batches e1 ≤ k) as Hk1.
      { assert (0 < earliest_index_ (view w)) as Hgt by lia.
        pose proof (batches_step _ Hgt) as Hstep. fold e1 in Hstep. lia. }
      cbn [catch_up]. rewrite Hrun. cbn [mbind option_bind].
      unfold flushes in Hm1, Hp1, Hem1.
      assert (bool_decide (200 < length (accepted_range (config w) (log (db_ w)) e1 n))
              = false) as Hbig by (apply bool_decide_eq_false_2; lia).
      rewrite Hbig, orb_false_r in Hm1, Hp1, Hem1.
      destruct (decide (e1 = 0)) as [Hz|Hnz].
      * rewrite (bool_decide_eq_true_2 _ Hz) in Hm1, Hp1, Hem1. cbn [andb] in *.
        rewrite Hz in *.
        destruct (IH 0 w1) as (w' & Hrun2 & Hmsg & Hem);
          try (rewrite ?Hdb, ?Hcfg, ?He1; lia).
        { rewrite He1, Hp1.
          transitivity (@nil nat); [|symmetry; apply accepted_range_empty; lia].
          destruct (bool_decide (length _ = 0)) eqn:Hl; cbn [negb]; [|done].
          apply bool_decide_eq_true_1 in Hl. by apply nil_length_inv. }
        { rewrite Hp1. intros _.
          destruct (bool_decide (length _ = 0)) eqn:Hl; cbn [negb]; [|done].
          apply bool_decide_eq_true_1 in Hl. by apply nil_length_inv. }
        { rewrite accepted_range_empty by lia. cbn. lia. }
        pose proof (accepted_range_empty (config w1) (log (db_ w1)) 0 0 (le_n 0))
          as Hnone.
        rewrite He1, Hnone, Hp1, Hm1 in Hmsg. rewrite He1, Hnone, Hp1, Hem1 in Hem.
        exists w'. split; [done|]. cbn [app] in Hmsg, Hem.
        destruct (bool_decide (length (accepted_range (config w) (log (db_ w)) 0 n) = 0))
          eqn:Hl; cbn [negb] in Hmsg, Hem.
        -- apply bool_decide_eq_true_1, nil_length_inv in Hl.
           rewrite Hl in *. cbn [app] in *.
           rewrite !bool_decide_eq_true_2 in * by done.
           rewrite !app_nil_r in *. done.
        -- apply bool_decide_eq_false_1 in Hl.
           rewrite bool_decide_eq_true_2 in Hem by done.
           rewrite app_nil_r in Hem.
           rewrite (bool_decide_eq_false_2 (accepted_range _ _ 0 n = [])).
           ++ done.
           ++ intros Hnil. by rewrite Hnil in Hl.
      * rewrite (bool_decide_eq_false_2 _ Hnz) in Hm1, Hp1, Hem1. cbn [andb] in *.
        destruct (IH n w1) as (w' & Hrun2 & Hmsg & Hem);
          try (rewrite ?Hdb, ?Hcfg, ?He1; lia).
        { by rewrite Hdb, Hcfg, He1, Hp1. }
        rewrite Hdb, Hcfg, He1, Hp1, Hm1 in Hmsg.
        rewrite Hdb, Hcfg, He1, Hp1, Hem1 in Hem.
        rewrite <- accepted_range_split in Hmsg, Hem by lia.
        rewrite app_nil_r in Hem.
        by exists w'.
Qed.

End Coalescing.

(** X19.  When at most 200 records of the backlog are accepted, a catch-up
    left to itself after a reset delivers them to the view in a single
    insertion: after [batches N] invocations the view is the ascending list
    of the accepted positions, and the signals emitted since the reset are
    one insertion of the rows 0 to (number accepted - 1), or none at all if
    no record is accepted. *)
Theorem X19_small_backlog_single_insertion `{External} (w0 : World) :
  length (accepted_range (config w0) (log (db_ w0)) 0 (length (log (db_ w0)))) ≤ 200 →
  ∃ w, catch_up (batches (length (log (db_ w0)))) (reset w0) = Some w ∧
    msg_mapping_ (view w) =
      accepted_range (config w0) (log (db_ w0)) 0 (length (log (db_ w0))) ∧
    emitted w =
      emitted (reset w0) ++
      (if bool_decide (msg_mapping_ (view w) = []) then []
       else insert_signals 0 (Z.of_nat (length (msg_mapping_ (view w))) - 1)).
Proof.
  intros Hfew.
  destruct (reset_frame w0) as (Hdb & Hcfg & _).
  pose proof (reset_view w0) as Hview.
  assert (earliest_index_ (view (reset w0)) = length (log (db_ w0))) as He
    by by rewrite Hview.
  assert (early_mapping_ (view (reset w0)) = []) as Hp by by rewrite Hview.
  assert (msg_mapping_ (view (reset w0)) = []) as Hm by by rewrite Hview.
  destruct (catch_up_quiet (batches (length (log (db_ w0)))) (length (log (db_ w0)))
              (reset w0)) as (w & Hrun & Hmsg & Hem).
  { rewrite He. lia. }
  { rewrite Hdb. lia. }
  { rewrite Hp, He. symmetry. apply accepted_range_empty. lia. }
  { by rewrite Hp. }
  { by rewrite Hdb, Hcfg. }
  { by rewrite He. }
  rewrite He, Hp, Hm, Hdb, Hcfg, !app_nil_r in Hmsg.
  rewrite He, Hp, Hdb, Hcfg, !app_nil_r in Hem.
  exists w. split; [done|]. split; [done|].
  rewrite Hem, Hmsg. case_bool_decide as Hnil; [done|].
  assert (length (accepted_range (config w0) (log (db_ w0)) 0 (length (log (db_ w0))))
          ≠ 0) by (by intros ?%nil_length_inv).
  rewrite to_int_small by (unfold CInt.INT_MAX; lia).
  do 2 f_equal; lia.
Qed.

Lemma X19_small_backlog_single_insertion_witness :
  ∃ w, catch_up (H := Example.external) 1 (reset Example.backlog) = Some w ∧
       emitted w = emitted (reset Example.backlog) ++ insert_signals 0 1.
Proof.
  destruct (X19_small_backlog_single_insertion (H := Example.external) Example.backlog)
    as (w & Hrun & Hmsg & Hem).
  { vm_compute. lia. }
  exists w. split; [exact Hrun|].
  rewrite Hem, Hmsg. reflexivity.
Defined.

(** ** After [clear] *)

Section AfterClear.
Context `{External}.
Implicit Types (w : World).

Lemma connected_keeps_view op :
  keeps_view op = true → Forall (λ o, keeps_view o = true) (connected op).
Proof. destruct op; intros Hop; try discriminate Hop; by repeat constructor. Qed.

Lemma deliver_keeps_view ops :
  Forall (λ o, keeps_view o = true) ops →
  Forall (λ o, keeps_view o = true) (deliver ops).
Proof.
  induction 1 as [|op ops Hop _ IH]; [constructor|].
  unfold deliver. cbn [fmap list_fmap concat]. apply Forall_app. split; [|done].
  by apply connected_keeps_view.
Qed.

End AfterClear.

(** X20.  After [clear], as long as the view is not reset again, the view
    is at every point of the application's event sequence exactly the
    ascending list of the accepted positions of what the database holds:
    with nothing to catch up on, forward extension alone keeps it
    complete. *)
Theorem X20_view_complete_after_clear `{External} (w0 : World) (ops : list Op) :
  Forall (λ op, keeps_view op = true) ops →
  ∃ w, run (deliver ops) (clear w0) = Some w ∧
       earliest_index_ (view w) = 0 ∧
       msg_mapping_ (view w) =
         accepted_range (config w0) (log (db_ w)) 0 (length (log (db_ w))).
Proof.
  intros Hops. unfold clear.
  set (wc := with_db (db_clear (db_ w0)) w0).
  destruct (deliver_in_sync ops (reset wc) (engine_inv_reset wc) (in_sync_reset wc))
    as (w & Hrun & _ & Hsync).
  destruct (run_keeps_view 0 (deliver ops) (reset wc) (deliver_keeps_view ops Hops))
    as (w' & Hrun' & Hv & Hcfg & _).
  { apply (view_inv_reset wc). }
  rewrite Hrun in Hrun'. injection Hrun' as <-.
  destruct (view_inv_cursors 0 w Hv) as (He & _ & _).
  assert (earliest_index_ (view w) = 0) as He0 by lia.
  exists w. split; [done|]. split; [done|].
  destruct (view_inv_complete 0 w Hv He0) as [_ ->].
  rewrite accepted_range_empty by lia. cbn [app].
  rewrite Hcfg, config_reset, Hsync. done.
Qed.

Lemma X20_view_complete_after_clear_witness :
  ∃ w, run (H := Example.external) (deliver Example.events_catch_up)
         (clear Example.caught_up) = Some w ∧
       msg_mapping_ (view w) = [0].
Proof.
  destruct (X20_view_complete_after_clear (H := Example.external) Example.caught_up
              Example.events_catch_up) as (w & Hrun & _ & Hmsg).
  { repeat constructor. }
  exists w. split; [exact Hrun|].
  vm_compute in Hrun. injection Hrun as <-. reflexivity.
Defined.

(** ** The relative time shown in a row *)

(** X21.  With relative time selected, the time [data] shows for a record
    splits the seconds of its distance from the origin time into hours,
    minutes and seconds that add up to it again; for a record not older
    than the origin the minutes and seconds are in [[0, 60)], and the
    milliseconds are in [[0, 1000)] when the nanoseconds are normalised. *)
Theorem X21_relative_time_decomposition `{External} (w : World) (item : LogEntry) :
  display_absolute_time_ (display w) = false →
  ∃ hours minutes seconds milliseconds : Z,
    stamp_text w item =
      Printf.snprintf 128
        (Printf.fmt_d 0 hours +:+ ":" +:+ Printf.fmt_d 2 minutes +:+ ":" +:+
         Printf.fmt_d 2 seconds +:+ ":" +:+ Printf.fmt_d 3 milliseconds)%string ∧
    (Ros.dsec (Time_minus (stamp item) (minTime (db_ w))) =
       3600 * hours + 60 * minutes + seconds)%Z ∧
    ((0 ≤ Ros.dsec (Time_minus (stamp item) (minTime (db_ w))))%Z →
     (0 ≤ hours ∧ 0 ≤ minutes < 60 ∧ 0 ≤ seconds < 60)%Z) ∧
    ((0 ≤ Ros.dnsec (Time_minus (stamp item) (minTime (db_ w))) < 1000000000)%Z →
     (0 ≤ milliseconds < 1000)%Z).
Proof.
  intros Hrel. unfold stamp_text. rewrite Hrel.
  set (t := Time_minus (stamp item) (minTime (db_ w))).
  eexists _, _, _, _. split; [reflexivity|].
  unfold CInt.div, CInt.rem.
  pose proof (Z.quot_rem' (Ros.dsec t) 60) as H1.
  pose proof (Z.quot_rem' (Ros.dsec t ÷ 60) 60) as H2.
  split; [lia|]. split.
  - intros Hpos.
    assert (0 ≤ Ros.dsec t ÷ 60)%Z by (apply Z.quot_pos; lia).
    assert (0 ≤ Ros.dsec t ÷ 60 ÷ 60)%Z by (apply Z.quot_pos; lia).
    pose proof (Z.rem_bound_pos (Ros.dsec t) 60).
    pose proof (Z.rem_bound_pos (Ros.dsec t ÷ 60) 60). lia.
  - intros [Hlo Hhi]. split.
    + apply Z.quot_pos; lia.
    + apply Z.quot_lt_upper_bound; lia.
Qed.

Lemma X21_relative_time_decomposition_witness :
  ∃ hours minutes seconds milliseconds : Z,
    stamp_text (H := Example.external) Example.caught_up
      (Example.entry Ros.WARN "A" "new"%string) =
      Printf.snprintf 128
        (Printf.fmt_d 0 hours +:+ ":" +:+ Printf.fmt_d 2 minutes +:+ ":" +:+
         Printf.fmt_d 2 seconds +:+ ":" +:+ Printf.fmt_d 3 milliseconds)%string ∧
    (0 ≤ hours ∧ 0 ≤ minutes < 60 ∧ 0 ≤ seconds < 60)%Z ∧
    (0 ≤ milliseconds < 1000)%Z.
Proof.
  destruct (X21_relative_time_decomposition (H := Example.external) Example.caught_up
              (Example.entry Ros.WARN "A" "new"%string))
    as (h & m & s & ms & Heq & _ & Hbounds & Hms).
  { reflexivity. }
  exists h, m, s, ms. split; [exact Heq|]. split.
  - apply Hbounds. vm_compute. intros Hc. discriminate Hc.
  - apply Hms. vm_compute. split; [intros Hc; discriminate Hc|reflexivity].
Defined.
